(** * DCPU-16 assembler (asm_pyparsing.py): code generation

    A shallow embedding of [process_operand], [make_words] and [codegen]
    from [asm_pyparsing.py], over the line records that the pyparsing
    grammar [full_grammar] produces: the parser itself is pyparsing's and is
    not modelled.  The Python integers that occur here are all built from
    digit strings, dictionary constants and list lengths, hence natural
    numbers: they are modelled in [N].  Exceptions are modelled by an error
    monad; assertions are taken as enabled. *)

From Stdlib Require Import NArith String Ascii List Lia.
From stdpp Require Import base option numbers list strings gmap fin_maps.

Local Open Scope string_scope.
Local Open Scope list_scope.
Local Open Scope N_scope.

(** ** Python values, exceptions *)

(** A program word is an [int] or a [str] (a label awaiting substitution). *)
Inductive pyval :=
  | PInt (n : N)
  | PStr (s : string).

(** The exceptions that [codegen] can let escape. *)
Inductive exn :=
  | KeyError (k : string)
  | AssertionError
  | AttributeError
  | UnboundLocalError (v : string)
  | struct_error.

Inductive outcome (A : Type) :=
  | Ok (a : A)
  | Raise (e : exn).
Arguments Ok {A} a.
Arguments Raise {A} e.

#[global] Instance outcome_ret : MRet outcome := fun A a => Ok a.
#[global] Instance outcome_bind : MBind outcome := fun A B k m =>
  match m with
  | Ok a => k a
  | Raise e => Raise e
  end.

Definition is_Raise {A} (m : outcome A) : Prop :=
  match m with Ok _ => False | Raise _ => True end.

(** [d[k]] on a dictionary. *)
Definition getitem (d : gmap string N) (k : string) : outcome N :=
  match d !! k with
  | Some v => Ok v
  | None => Raise (KeyError k)
  end.

(** ** Parsed operands

    The grammar's [register], [stack_op] and [instruction] alternatives are
    keyword sets; the parse actions normalise the token to upper case, so
    the generator only ever sees the names below. *)

Module Reg.
Inductive register := A | B | C | I | J | X | Y | Z | O | PC | SP.
End Reg.
Abbreviation register := Reg.register.

Definition register_name (r : register) : string :=
  match r with
  | Reg.A => "A" | Reg.B => "B" | Reg.C => "C" | Reg.I => "I"
  | Reg.J => "J" | Reg.X => "X" | Reg.Y => "Y" | Reg.Z => "Z"
  | Reg.O => "O" | Reg.PC => "PC" | Reg.SP => "SP"
  end.

Module Op.
Inductive mnemonic :=
  | SET | ADD | SUB | MUL | DIV | MOD | SHL | SHR
  | AND | BOR | XOR | IFE | IFN | IFG | IFB | JSR.
End Op.
Abbreviation mnemonic := Op.mnemonic.

Definition mnemonic_name (m : mnemonic) : string :=
  match m with
  | Op.SET => "SET" | Op.ADD => "ADD" | Op.SUB => "SUB" | Op.MUL => "MUL"
  | Op.DIV => "DIV" | Op.MOD => "MOD" | Op.SHL => "SHL" | Op.SHR => "SHR"
  | Op.AND => "AND" | Op.BOR => "BOR" | Op.XOR => "XOR" | Op.IFE => "IFE"
  | Op.IFN => "IFN" | Op.IFG => "IFG" | Op.IFB => "IFB" | Op.JSR => "JSR"
  end.

Inductive stack_op := PEEK | POP | PUSH.

Definition stack_op_name (s : stack_op) : string :=
  match s with PEEK => "PEEK" | POP => "POP" | PUSH => "PUSH" end.

(** [literal = numeric_literal | identifier]: an [int] or a non-empty [str]. *)
Inductive basic_operand :=
  | BRegister (r : register)
  | BStackOp (s : stack_op)
  | BLiteral (l : pyval).

(** [indirection_content = indirect_expr("expr") | basic_operand("basic")] *)
Inductive indirection :=
  | IExpr (l : pyval) (r : register)
  | IBasic (b : basic_operand).

(** [operand = basic_operand("basic") | indirection("indirect")] *)
Inductive operand :=
  | Basic (b : basic_operand)
  | Indirect (i : indirection).

(** ** The tables *)

Definition IDENTIFIERS : gmap string N :=
  list_to_map
    [("A", 0x0); ("B", 0x1); ("C", 0x2); ("X", 0x3); ("Y", 0x4); ("Z", 0x5);
     ("I", 0x6); ("J", 0x7); ("POP", 0x18); ("PEEK", 0x19); ("PUSH", 0x1A);
     ("SP", 0x1B); ("PC", 0x1C)].

Definition OPCODES : gmap string N :=
  list_to_map
    [("SET", 0x1); ("ADD", 0x2); ("SUB", 0x3); ("MUL", 0x4); ("DIV", 0x5);
     ("MOD", 0x6); ("SHL", 0x7); ("SHR", 0x8); ("AND", 0x9); ("BOR", 0xA);
     ("XOR", 0xB); ("IFE", 0xC); ("IFN", 0xD); ("IFG", 0xE); ("IFB", 0xF)].

(** ** [process_operand] *)

(** Python's [needle in haystack] on strings: substring test. *)
Fixpoint str_in (needle haystack : string) : bool :=
  String.prefix needle haystack ||
  match haystack with
  | EmptyString => false
  | String _ rest => str_in needle rest
  end.

(** [assert c] *)
Definition assert (c : bool) : outcome unit :=
  if c then Ok tt else Raise AssertionError.

(** Returns the 6-bit field code and the optional extra word.  A name that
    the parse results do not hold reads as the empty string, never as
    [None]: so [ib.literal is not None] holds for every indirect basic
    operand that is not a register, a stack operation included, whose
    [literal] is then the empty string.  The closing [return None, None] is
    not reached for an operand of the grammar. *)
Definition process_operand (o : operand) : outcome (N * option pyval) :=
  match o with
  | Basic b =>
      match b with
      | BRegister r =>
          c ← getitem IDENTIFIERS (register_name r); Ok (c, None)
      | BStackOp s =>
          c ← getitem IDENTIFIERS (stack_op_name s); Ok (c, None)
      | BLiteral l =>
          match l with
          | PInt n =>
              if n <? 0x20 then Ok (N.lor 0x20 n, None)
              else Ok (0x1F, Some l)
          | PStr s =>
              _ ← assert (negb (String.eqb s "")); Ok (0x1F, Some l)
          end
      end
  | Indirect i =>
      match i with
      | IBasic ib =>
          match ib with
          | BRegister r =>
              _ ← assert (str_in (register_name r) "ABCXYZIJ");
              c ← getitem IDENTIFIERS (register_name r);
              Ok (0x8 + c, None)
          | BStackOp _ => Ok (0x1E, Some (PStr ""))
          | BLiteral l => Ok (0x1E, Some l)
          end
      | IExpr l r =>
          _ ← assert (str_in (register_name r) "ABCXYZIJ");
          c ← getitem IDENTIFIERS (register_name r);
          Ok (N.lor 0x10 c, Some l)
      end
  end.

(** ** The data directive *)

(** [data[::2]] *)
Fixpoint slice2 {T} (data : list T) : list T :=
  match data with
  | a :: _ :: rest => a :: slice2 rest
  | _ => data
  end.

Fixpoint izip_longest {T} (fillvalue : T) (l1 l2 : list T) : list (T * T) :=
  match l1 with
  | [] => map (fun b => (fillvalue, b)) l2
  | a :: l1' =>
      match l2 with
      | [] => (a, fillvalue) :: izip_longest fillvalue l1' []
      | b :: l2' => (a, b) :: izip_longest fillvalue l1' l2'
      end
  end.

(** [[a << 8 | b for a, b in izip_longest(data[::2], data[1::2], fillvalue=0)]] *)
Definition make_words (data : list N) : list N :=
  map (fun '(a, b) => N.lor (N.shiftl a 8) b)
      (izip_longest 0 (slice2 data) (slice2 (tail data))).

Definition ord (c : ascii) : N := N_of_ascii c.

(** [make_words([ord(c) for c in tokens.string])], on the string with its
    quotes removed. *)
Definition wordize_string (s : string) : list N :=
  make_words (map ord (list_ascii_of_string s)).

(** [datum = quoted_string | numeric_literal] *)
Inductive datum :=
  | quoted_string (s : string)
  | numeric_literal (n : N).

Definition datum_parse (token : datum) : list N :=
  match token with
  | quoted_string s => wordize_string s
  | numeric_literal n => [n]
  end.

(** [result = []; for token in tokens: result.extend(datum.parseString(token))] *)
Definition parse_data (tokens : list datum) : list N :=
  fold_left (fun result token => result ++ datum_parse token) tokens [].

(** ** Statements and lines *)

(** [s.second] is absent when the source line has a single operand. *)
Inductive stmt :=
  | Instruction (instruction : mnemonic) (first : operand) (second : option operand)
  | DAT (data : list datum).

(** [label] is the empty string on a line without a label definition;
    [identifier] never matches the empty string. *)
Record line := Line { label : string; statement : option stmt }.

(** ** [codegen] *)

(** The local variables of [codegen] that live across iterations of the
    generation loop.  [x] is unbound ([None]) until a two-operand instruction
    assigns it; bound, it holds [None] or an extra word. *)
Record locals := Locals {
  labels : gmap string N;
  program : list pyval;
  x : option (option pyval)
}.

Definition locals_init : locals :=
  {| labels := ∅; program := []; x := None |}.

(** [(b << 10) + (a << 4) + o] *)
Definition instruction_word (o a b : N) : N :=
  N.shiftl b 10 + N.shiftl a 4 + o.

(** Reading the local [x]. *)
Definition read_x (st : locals) : outcome (option pyval) :=
  match x st with
  | Some v => Ok v
  | None => Raise (UnboundLocalError "x")
  end.

(** [process_operand(s.second)]: an absent [second] reads as the empty
    string, which has no attribute [basic]. *)
Definition process_second (second : option operand) : outcome (N * option pyval) :=
  match second with
  | Some o => process_operand o
  | None => Raise AttributeError
  end.

(** One iteration of [for line in parsed]. *)
Definition codegen_line (st : locals) (ln : line) : outcome locals :=
  let labels' :=
    if String.eqb (label ln) "" then labels st
    else <[label ln := N.of_nat (length (program st))]> (labels st) in
  match statement ln with
  | None => Ok {| labels := labels'; program := program st; x := x st |}
  | Some (DAT data) =>
      Ok {| labels := labels';
            program := program st ++ map PInt (parse_data data);
            x := x st |}
  | Some (Instruction instruction first second) =>
      if String.eqb (mnemonic_name instruction) "JSR" then
        '(b, y) ← process_operand first;
        let program1 := program st ++ [PInt (instruction_word 0x00 0x01 b)] in
        xv ← read_x st;
        Ok {| labels := labels';
              program := program1 ++ option_list xv ++ option_list y;
              x := x st |}
      else
        o ← getitem OPCODES (mnemonic_name instruction);
        '(a, xv) ← process_operand first;
        '(b, y) ← process_second second;
        Ok {| labels := labels';
              program := program st ++ [PInt (instruction_word o a b)]
                           ++ option_list xv ++ option_list y;
              x := Some xv |}
  end.

Fixpoint generate_from (st : locals) (parsed : list line) : outcome locals :=
  match parsed with
  | [] => Ok st
  | ln :: rest => st' ← codegen_line st ln; generate_from st' rest
  end.

Definition generate (parsed : list line) : outcome locals :=
  generate_from locals_init parsed.

(** [if isinstance(c, basestring): program[i] = labels[c]] *)
Definition substitute_word (labels : gmap string N) (c : pyval) : outcome pyval :=
  match c with
  | PStr s => a ← getitem labels s; Ok (PInt a)
  | PInt _ => Ok c
  end.

Fixpoint substitute (labels : gmap string N) (program : list pyval)
  : outcome (list pyval) :=
  match program with
  | [] => Ok []
  | c :: rest =>
      c' ← substitute_word labels c;
      rest' ← substitute labels rest;
      Ok (c' :: rest')
  end.

(** [struct.pack(">H", word)]: two bytes, most significant first; a word
    outside [0, 0xFFFF] raises [struct.error]. *)
Definition pack_H (word : pyval) : outcome (list N) :=
  match word with
  | PInt n =>
      if n <=? 0xFFFF then Ok [N.shiftr n 8; N.land n 0xFF]
      else Raise struct_error
  | PStr _ => Raise struct_error
  end.

(** [for word in program: result += struct.pack(">H", word)] *)
Fixpoint serialize (result : list N) (program : list pyval) : outcome (list N) :=
  match program with
  | [] => Ok result
  | word :: rest => bs ← pack_H word; serialize (result ++ bs) rest
  end.

(** [codegen], from the parse results on. *)
Definition codegen (parsed : list line) : outcome (list N) :=
  st ← generate parsed;
  resolved ← substitute (labels st) (program st);
  serialize [] resolved.

(** ** Notions used in the statements *)

(** The decoding of an instruction word that the DCPU-16 performs:
    [(W >> 10) & 0x3F], [(W >> 4) & 0x3F] and [W & 0xF]. *)
Definition field_b (W : N) : N := N.land (N.shiftr W 10) 0x3F.
Definition field_a (W : N) : N := N.land (N.shiftr W 4) 0x3F.
Definition field_o (W : N) : N := N.land W 0xF.

(** The eight registers that pass [register in "ABCXYZIJ"]. *)
Definition named_registers : list register :=
  [Reg.A; Reg.B; Reg.C; Reg.X; Reg.Y; Reg.Z; Reg.I; Reg.J].

(** [o] is an operand that [codegen] hands to [process_operand] for the
    line: [s.first] always, [s.second] unless the instruction is [JSR]. *)
Definition uses_operand (ln : line) (o : operand) : Prop :=
  match statement ln with
  | Some (Instruction m first second) =>
      o = first \/ (mnemonic_name m <> "JSR" /\ second = Some o)
  | _ => False
  end.

(** The label table after [if line.label: labels[line.label] = len(program)]. *)
Definition bind_label (st : locals) (ln : line) : gmap string N :=
  if String.eqb (label ln) "" then labels st
  else <[label ln := N.of_nat (length (program st))]> (labels st).

(** Two states that differ at most in what the label table binds [name] to. *)
Definition agree_except (name : string) (st1 st2 : locals) : Prop :=
  program st1 = program st2 /\ x st1 = x st2 /\
  forall k, k <> name -> labels st1 !! k = labels st2 !! k.

(** Two runs end alike: in related results, or in the same exception. *)
Definition outcome_rel {T} (R : T -> T -> Prop) (m1 m2 : outcome T) : Prop :=
  match m1, m2 with
  | Ok a, Ok b => R a b
  | Raise e1, Raise e2 => e1 = e2
  | _, _ => False
  end.

(** ** Sample lines *)

(** [SET A, 0x30] as the grammar delivers it. *)
Definition line_set_a_0x30 : line :=
  Line "" (Some (Instruction Op.SET (Basic (BRegister Reg.A))
                   (Some (Basic (BLiteral (PInt 0x30)))))).

(** [SET [0x1000], 0x20] and [JSR 0x30] as the grammar delivers them. *)
Definition line_set_mem : line :=
  Line "" (Some (Instruction Op.SET (Indirect (IBasic (BLiteral (PInt 0x1000))))
                   (Some (Basic (BLiteral (PInt 0x20)))))).
Definition line_jsr_0x30 : line :=
  Line "" (Some (Instruction Op.JSR (Basic (BLiteral (PInt 0x30))) None)).

(** [SET PC, crash], with no line defining [crash]. *)
Definition line_set_pc_crash : line :=
  Line "" (Some (Instruction Op.SET (Basic (BRegister Reg.PC))
                   (Some (Basic (BLiteral (PStr "crash")))))).

(** [SET PC, loop], a line [:loop SET A, 1] and [SET PC, loop] again:
    a reference before the definition and one after it. *)
Definition line_set_pc_loop : line :=
  Line "" (Some (Instruction Op.SET (Basic (BRegister Reg.PC))
                   (Some (Basic (BLiteral (PStr "loop")))))).
Definition line_loop_set_a : line :=
  Line "loop" (Some (Instruction Op.SET (Basic (BRegister Reg.A))
                       (Some (Basic (BLiteral (PInt 1)))))).

Definition locals_loop : locals :=
  {| labels := <["loop" := 2]> ∅;
     program := [PInt 0x7DC1; PStr "loop"; PInt 0x8401; PInt 0x7DC1; PStr "loop"];
     x := Some None |}.

Definition stmt_set_pc_loop : option stmt :=
  Some (Instruction Op.SET (Basic (BRegister Reg.PC))
          (Some (Basic (BLiteral (PStr "loop"))))).
Definition stmt_set_a_1 : option stmt :=
  Some (Instruction Op.SET (Basic (BRegister Reg.A))
          (Some (Basic (BLiteral (PInt 1))))).

(** ** Notions used in the further statements *)

(** The field codes after which the DCPU-16 reads a next word:
    [0x10]-[0x17] ([[next word + register]]), [0x1E] ([[next word]]) and
    [0x1F] (next word as literal). *)
Definition takes_next_word (c : N) : bool :=
  ((0x10 <=? c) && (c <=? 0x17)) || (c =? 0x1E) || (c =? 0x1F).

(** The line without its label definition. *)
Definition erase_label (ln : line) : line := Line "" (statement ln).



(** The line holds no two-operand instruction (it is blank, a [DAT] or a
    [JSR]). *)
Definition no_two_operand_instruction (ln : line) : Prop :=
  match statement ln with
  | Some (Instruction m _ _) => mnemonic_name m = "JSR"
  | _ => True
  end.

(** The integer that a program word stands for under a label table: itself,
    or the address bound to its name. *)
Definition word_value (lbls : gmap string N) (c : pyval) : option N :=
  match c with
  | PInt n => Some n
  | PStr name => lbls !! name
  end.

(** The two bytes of a 16-bit word, most significant first. *)
Definition be16 (w : N) : list N := [N.shiftr w 8; N.land w 0xFF].

(** The states after [SET PC, loop] alone, and after [:loop SET A, 1] and
    [SET PC, loop] alone. *)
Definition locals_jump : locals :=
  {| labels := ∅; program := [PInt 0x7DC1; PStr "loop"]; x := Some None |}.

(** * Properties *)

(** ** The model on sample inputs *)

Example process_operand_A : process_operand (Basic (BRegister Reg.A)) = Ok (0, None).
Proof. vm_compute. reflexivity. Qed.

Example process_operand_ind_J :
  process_operand (Indirect (IBasic (BRegister Reg.J))) = Ok (0xF, None).
Proof. vm_compute. reflexivity. Qed.

Example process_operand_ind_PC :
  process_operand (Indirect (IBasic (BRegister Reg.PC))) = Raise AssertionError.
Proof. vm_compute. reflexivity. Qed.

Example make_words_HI : wordize_string "HI" = [0x4849].
Proof. reflexivity. Qed.

Example make_words_odd : wordize_string "HI!" = [0x4849; 0x2100].
Proof. reflexivity. Qed.

Example codegen_set_a :
  codegen [Line "" (Some (Instruction Op.SET (Basic (BRegister Reg.A))
                            (Some (Basic (BLiteral (PInt 0x30))))))]
  = Ok [0x7C; 0x01; 0x00; 0x30].
Proof. vm_compute. reflexivity. Qed.

(** ** Bit fields of the instruction word *)

Section BitFields.

Lemma testbit_above (v i n : N) : v < 2 ^ n -> n <= i -> N.testbit v i = false.
Proof.
  intros Hv Hi. destruct (decide (v = 0)) as [->|Hne].
  - apply N.bits_0.
  - apply N.bits_above_log2.
    assert (N.log2 v < n) by (apply N.log2_lt_pow2; lia). lia.
Qed.

Lemma land_shiftl_low (h v n : N) : v < 2 ^ n -> N.land (N.shiftl h n) v = 0.
Proof.
  intros Hv. apply N.bits_inj_0. intros i. rewrite N.land_spec.
  destruct (decide (i < n)) as [Hlt|Hge].
  - rewrite N.shiftl_spec_low by done. done.
  - rewrite (testbit_above v i n) by lia. apply andb_false_r.
Qed.

Lemma lor_shiftl_low (h v n : N) :
  v < 2 ^ n -> N.lor (N.shiftl h n) v = N.shiftl h n + v.
Proof.
  intros Hv. pose proof (land_shiftl_low h v n Hv) as H0.
  rewrite (N.add_nocarry_lxor _ _ H0). symmetry. by apply N.lxor_lor.
Qed.

Variables o a b : N.
Hypothesis Ho : o < 16.
Hypothesis Ha : a <= 0x3F.
Hypothesis Hb : b <= 0x3F.

Lemma instruction_word_mul : instruction_word o a b = b * 1024 + a * 16 + o.
Proof. unfold instruction_word. by rewrite !N.shiftl_mul_pow2. Qed.

(** The sum that the generator computes is the bitwise or of the spec. *)
Lemma instruction_word_lor :
  instruction_word o a b = N.lor (N.lor (N.shiftl b 10) (N.shiftl a 4)) o.
Proof.
  unfold instruction_word.
  assert (Hlow : N.shiftl a 4 + o < 2 ^ 10).
  { rewrite N.shiftl_mul_pow2. change (2 ^ 4) with 16. change (2 ^ 10) with 1024. lia. }
  assert (Hao : N.lor (N.shiftl a 4) o = N.shiftl a 4 + o).
  { apply lor_shiftl_low. change (2 ^ 4) with 16. lia. }
  rewrite <- N.lor_assoc, Hao, lor_shiftl_low by done. lia.
Qed.

Lemma field_b_word : field_b (instruction_word o a b) = b.
Proof.
  unfold field_b. rewrite instruction_word_mul, N.shiftr_div_pow2.
  change 0x3F with (N.ones 6). rewrite N.land_ones.
  change (2 ^ 10) with 1024. change (2 ^ 6) with 64.
  assert ((b * 1024 + a * 16 + o) / 1024 = b) as ->.
  { symmetry. apply N.div_unique with (a * 16 + o); lia. }
  apply N.mod_small. lia.
Qed.

Lemma field_a_word : field_a (instruction_word o a b) = a.
Proof.
  unfold field_a. rewrite instruction_word_mul, N.shiftr_div_pow2.
  change 0x3F with (N.ones 6). rewrite N.land_ones.
  change (2 ^ 4) with 16. change (2 ^ 6) with 64.
  assert ((b * 1024 + a * 16 + o) / 16 = b * 64 + a) as ->.
  { symmetry. apply N.div_unique with o; lia. }
  symmetry. apply N.mod_unique with b; lia.
Qed.

Lemma field_o_word : field_o (instruction_word o a b) = o.
Proof.
  unfold field_o. rewrite instruction_word_mul.
  change 0xF with (N.ones 4). rewrite N.land_ones. change (2 ^ 4) with 16.
  symmetry. apply N.mod_unique with (b * 64 + a); lia.
Qed.

End BitFields.

(** C8: decoding the instruction word [(b << 10) + (a << 4) + o] by
    [(W >> 10) & 0x3F], [(W >> 4) & 0x3F] and [W & 0xF] gives back [b], [a]
    and [o], for every opcode below 16 and field codes in [0, 0x3F]. *)
Theorem instruction_word_roundtrip (o a b : N) :
  o < 16 -> a <= 0x3F -> b <= 0x3F ->
  let W := instruction_word o a b in
  W = N.shiftl b 10 + N.shiftl a 4 + o /\
  field_b W = b /\ field_a W = a /\ field_o W = o.
Proof.
  intros Ho Ha Hb W. subst W. split; [reflexivity|].
  auto using field_b_word, field_a_word, field_o_word.
Qed.

Lemma instruction_word_roundtrip_witness :
  let W := instruction_word 0x1 0x00 0x1F in
  W = 0x7C01 /\ field_b W = 0x1F /\ field_a W = 0x00 /\ field_o W = 0x1.
Proof.
  apply (instruction_word_roundtrip 0x1 0x00 0x1F); lia.
Defined.

(** ** The operand classifier *)

Lemma lor_0x20_small (n : N) : n < 0x20 -> N.lor 0x20 n = 0x20 + n.
Proof.
  intros Hn. change 0x20 with (N.shiftl 1 5) at 1 2.
  apply lor_shiftl_low. by change (2 ^ 5) with 32.
Qed.

Lemma named_register_index (r : register) :
  r ∈ named_registers ->
  str_in (register_name r) "ABCXYZIJ" = true /\
  exists idx, IDENTIFIERS !! register_name r = Some idx /\ idx < 8.
Proof.
  intros Hr. unfold named_registers in Hr.
  repeat (apply elem_of_cons in Hr as [->|Hr]);
    [split; [reflexivity | eexists; split; [vm_compute; reflexivity | lia]] ..|].
  by apply elem_of_nil in Hr.
Qed.

Lemma other_register_rejected (r : register) :
  r ∉ named_registers -> str_in (register_name r) "ABCXYZIJ" = false.
Proof.
  intros Hr. destruct r; try reflexivity;
    exfalso; apply Hr; unfold named_registers; repeat constructor.
Qed.

(** Every field code that [process_operand] returns fits in six bits. *)
Lemma process_operand_field_code (o : operand) (c : N) (w : option pyval) :
  process_operand o = Ok (c, w) -> c <= 0x3F.
Proof.
  destruct o as [[r|s|[n|s]]|[l r|[r|s|l]]]; cbn.
  - destruct r; vm_compute; intros [= <- <-] || discriminate; discriminate.
  - destruct s; vm_compute; intros [= <- <-]; discriminate.
  - destruct (N.ltb_spec n 0x20) as [Hlt|Hge]; intros [= <- <-]; [|lia].
    rewrite lor_0x20_small by done. lia.
  - destruct (negb _); cbn; [|discriminate]. intros [= <- <-]. lia.
  - destruct r; vm_compute; intros [= <- <-] || discriminate; discriminate.
  - destruct r; vm_compute; intros [= <- <-] || discriminate; discriminate.
  - intros [= <- <-]. lia.
  - intros [= <- <-]. lia.
Qed.

(** C3: a numeric literal below [0x20] is inlined as field code [0x20 | L]
    without an extra word ([0x1F] gives [0x3F]); a numeric literal from
    [0x20] on, and a symbolic literal, get field code [0x1F] and the literal
    as extra word ([0x20] gives [0x1F] then [0x20]). *)
Theorem literal_operand_classification :
  (forall L, L < 0x20 ->
     process_operand (Basic (BLiteral (PInt L))) = Ok (N.lor 0x20 L, None) /\
     N.lor 0x20 L = 0x20 + L) /\
  (forall L, 0x20 <= L ->
     process_operand (Basic (BLiteral (PInt L))) = Ok (0x1F, Some (PInt L))) /\
  (forall name, name <> "" ->
     process_operand (Basic (BLiteral (PStr name))) = Ok (0x1F, Some (PStr name))) /\
  process_operand (Basic (BLiteral (PInt 0x1F))) = Ok (0x3F, None) /\
  process_operand (Basic (BLiteral (PInt 0x20))) = Ok (0x1F, Some (PInt 0x20)).
Proof.
  repeat split.
  - cbn. destruct (N.ltb_spec L 0x20); [done | lia].
  - by apply lor_0x20_small.
  - intros L HL. cbn. destruct (N.ltb_spec L 0x20); [lia | done].
  - intros name Hname. cbn.
    destruct (String.eqb_spec name ""); [done | reflexivity].
Qed.

Lemma literal_operand_classification_witness :
  process_operand (Basic (BLiteral (PInt 5))) = Ok (0x25, None) /\
  process_operand (Basic (BLiteral (PInt 0x1000))) = Ok (0x1F, Some (PInt 0x1000)) /\
  process_operand (Basic (BLiteral (PStr "loop"))) = Ok (0x1F, Some (PStr "loop")).
Proof.
  destruct literal_operand_classification as (Hsmall & Hbig & Hsym & _).
  split; [|split].
  - apply (Hsmall 5). lia.
  - apply (Hbig 0x1000). lia.
  - apply (Hsym "loop"). discriminate.
Defined.

Lemma is_Raise_bind {T U} (m : outcome T) (k : T -> outcome U) :
  is_Raise m -> is_Raise (m ≫= k).
Proof. by destruct m. Qed.

Lemma codegen_line_operand_fails (st : locals) (ln : line) (o : operand) :
  uses_operand ln o -> is_Raise (process_operand o) -> is_Raise (codegen_line st ln).
Proof.
  unfold uses_operand, codegen_line.
  destruct (statement ln) as [[m first second|data]|]; [|done..].
  intros Huse Hfail. destruct (String.eqb_spec (mnemonic_name m) "JSR") as [Hm|Hm].
  - destruct Huse as [->|[? _]]; [|done]. by apply is_Raise_bind.
  - destruct (getitem OPCODES (mnemonic_name m)) as [opc|]; [cbn|done].
    destruct Huse as [->|[_ ->]]; [by apply is_Raise_bind|].
    destruct (process_operand first) as [[a xv]|]; [cbn|done].
    by apply is_Raise_bind.
Qed.

Lemma generate_from_fails (parsed : list line) (ln : line) :
  ln ∈ parsed -> (forall st, is_Raise (codegen_line st ln)) ->
  forall st, is_Raise (generate_from st parsed).
Proof.
  intros Hin Hfail. induction parsed as [|ln' rest IH]; intros st.
  - by apply elem_of_nil in Hin.
  - cbn. apply elem_of_cons in Hin as [<-|Hin].
    + by apply is_Raise_bind.
    + destruct (codegen_line st ln'); [cbn; by apply IH | done].
Qed.

Lemma codegen_operand_fails (parsed : list line) (ln : line) (o : operand) :
  ln ∈ parsed -> uses_operand ln o -> is_Raise (process_operand o) ->
  is_Raise (codegen parsed).
Proof.
  intros Hin Huse Hfail. unfold codegen, generate. apply is_Raise_bind.
  apply (generate_from_fails parsed ln Hin).
  intros st. by apply (codegen_line_operand_fails st ln o).
Qed.

(** C7: an indirect register operand and an indirect [literal + register]
    operand whose register is PC or SP fail the assertion, and with them
    the assembly of any source whose line uses such an operand; for the eight
    named registers the field codes are [0x08 + index] and [0x10 | index]. *)
Theorem indirect_register_restriction (r : register) :
  (r ∈ [Reg.PC; Reg.SP] ->
     forall o, o = Indirect (IBasic (BRegister r)) \/ (exists l, o = Indirect (IExpr l r)) ->
       process_operand o = Raise AssertionError /\
       forall parsed ln, ln ∈ parsed -> uses_operand ln o -> is_Raise (codegen parsed)) /\
  (r ∈ named_registers ->
     exists idx, IDENTIFIERS !! register_name r = Some idx /\ idx < 8 /\
       process_operand (Indirect (IBasic (BRegister r))) = Ok (0x08 + idx, None) /\
       forall l, process_operand (Indirect (IExpr l r)) = Ok (N.lor 0x10 idx, Some l)).
Proof.
  split.
  - intros Hr o Ho.
    assert (Hfail : process_operand o = Raise AssertionError).
    { repeat (apply elem_of_cons in Hr as [->|Hr]);
        [destruct Ho as [->|[l ->]]; reflexivity ..|].
      by apply elem_of_nil in Hr. }
    split; [done|]. intros parsed ln Hin Huse.
    apply (codegen_operand_fails parsed ln o Hin Huse). by rewrite Hfail.
  - intros Hr. destruct (named_register_index r Hr) as (Hin & idx & Hidx & Hlt).
    exists idx. repeat split; [done..| |]; [|intros l];
      unfold process_operand, getitem; rewrite Hin, Hidx; reflexivity.
Qed.

Lemma indirect_register_restriction_witness :
  process_operand (Indirect (IBasic (BRegister Reg.PC))) = Raise AssertionError /\
  is_Raise (codegen [Line "" (Some (Instruction Op.SET (Basic (BRegister Reg.A))
                       (Some (Indirect (IBasic (BRegister Reg.PC))))))]) /\
  exists idx, IDENTIFIERS !! "J" = Some idx /\ idx < 8 /\
    process_operand (Indirect (IBasic (BRegister Reg.J))) = Ok (0x08 + idx, None) /\
    forall l, process_operand (Indirect (IExpr l Reg.J)) = Ok (N.lor 0x10 idx, Some l).
Proof.
  destruct (indirect_register_restriction Reg.PC) as [Hpc _].
  destruct (Hpc ltac:(repeat constructor) (Indirect (IBasic (BRegister Reg.PC))) (or_introl eq_refl))
    as [Hfail Hasm].
  split; [exact Hfail|]. split.
  - eapply Hasm; [apply list_elem_of_here|]. right. split; [discriminate | reflexivity].
  - destruct (indirect_register_restriction Reg.J) as [_ Hj]. apply Hj.
    unfold named_registers. repeat constructor.
Defined.

(** ** The instruction encoder *)

Lemma OPCODES_range (m : mnemonic) (o : N) :
  OPCODES !! mnemonic_name m = Some o ->
  o < 16 /\ String.eqb (mnemonic_name m) "JSR" = false.
Proof. destruct m; vm_compute; intros [= <-] || discriminate; done. Qed.

Lemma OPCODES_total (m : mnemonic) :
  String.eqb (mnemonic_name m) "JSR" = false ->
  exists o, OPCODES !! mnemonic_name m = Some o.
Proof. destruct m; (discriminate || (intros _; eexists; vm_compute; reflexivity)). Qed.

(** C2: a two-operand instruction with opcode [o] whose operands encode as
    [(a, x)] and [(b, y)] appends the word [(b << 10) | (a << 4) | o], then
    [x] if present, then [y] if present; [SET A, 0x30] gives [0x7C01] then
    [0x0030]. *)
Theorem two_operand_encoding :
  (forall (st : locals) (lbl : string) (m : mnemonic) (first second : operand)
          (o a b : N) (xw yw : option pyval),
     OPCODES !! mnemonic_name m = Some o ->
     process_operand first = Ok (a, xw) ->
     process_operand second = Ok (b, yw) ->
     exists st',
       codegen_line st (Line lbl (Some (Instruction m first (Some second)))) = Ok st' /\
       program st' =
         program st
           ++ [PInt (N.lor (N.lor (N.shiftl b 10) (N.shiftl a 4)) o)]
           ++ option_list xw ++ option_list yw) /\
  (exists st', generate [line_set_a_0x30] = Ok st' /\
     program st' = [PInt 0x7C01; PInt 0x0030]) /\
  codegen [line_set_a_0x30] = Ok [0x7C; 0x01; 0x00; 0x30].
Proof.
  split; [|split].
  - intros st lbl m first second o a b xw yw Ho Ha Hb.
    destruct (OPCODES_range m o Ho) as [Hlt Hjsr].
    unfold codegen_line; cbn [statement label]. rewrite Hjsr.
    unfold getitem. rewrite Ho. cbn. rewrite Ha. cbn. rewrite Hb. cbn.
    eexists. split; [reflexivity|]. cbn [program].
    rewrite (instruction_word_lor o a b); [done | done | |].
    + by apply process_operand_field_code in Ha.
    + by apply process_operand_field_code in Hb.
  - eexists. split; [vm_compute; reflexivity | reflexivity].
  - vm_compute. reflexivity.
Qed.

Lemma two_operand_encoding_witness :
  exists st',
    codegen_line locals_init
      (Line "" (Some (Instruction Op.ADD (Indirect (IBasic (BLiteral (PInt 0x1000))))
                        (Some (Basic (BLiteral (PStr "data"))))))) = Ok st' /\
    program st' = [PInt 0x7DE2; PInt 0x1000; PStr "data"].
Proof.
  destruct two_operand_encoding as [Hgen _].
  apply (Hgen locals_init "" Op.ADD (Indirect (IBasic (BLiteral (PInt 0x1000))))
           (Basic (BLiteral (PStr "data"))) 0x2 0x1E 0x1F
           (Some (PInt 0x1000)) (Some (PStr "data")));
    vm_compute; reflexivity.
Defined.

(** On a [JSR] line the generator appends the instruction word, then
    whatever the local [x] holds from the last two-operand instruction,
    then the operand's extra word. *)
Lemma codegen_line_JSR (st : locals) (lbl : string) (o : operand) (second : option operand)
    (b : N) (yw xw : option pyval) :
  process_operand o = Ok (b, yw) -> x st = Some xw ->
  exists st',
    codegen_line st (Line lbl (Some (Instruction Op.JSR o second))) = Ok st' /\
    program st' =
      program st ++ [PInt (instruction_word 0x00 0x01 b)]
        ++ option_list xw ++ option_list yw.
Proof.
  intros Ho Hx. unfold codegen_line, read_x; cbn [statement label mnemonic_name].
  cbn [String.eqb Ascii.eqb Bool.eqb]. rewrite Ho; cbn. rewrite Hx; cbn.
  eexists. split; [reflexivity|]. cbn [program]. by rewrite <- !app_assoc.
Qed.

Lemma codegen_line_JSR_unbound (st : locals) (lbl : string) (o : operand)
    (second : option operand) (b : N) (yw : option pyval) :
  process_operand o = Ok (b, yw) -> x st = None ->
  codegen_line st (Line lbl (Some (Instruction Op.JSR o second)))
  = Raise (UnboundLocalError "x").
Proof.
  intros Ho Hx. unfold codegen_line, read_x; cbn [statement label mnemonic_name].
  cbn [String.eqb Ascii.eqb Bool.eqb]. rewrite Ho; cbn. by rewrite Hx.
Qed.

(** C1 (the code departs from it): after [SET [0x1000], 0x20], the line
    [JSR 0x30] appends three words, the stale extra word [0x1000] of the
    preceding instruction between the instruction word [0x7C10] and the
    operand's extra word; and a [JSR] that no two-operand instruction
    precedes raises [UnboundLocalError]. *)
Theorem jsr_emits_stale_extra_word :
  (exists st st',
     generate [line_set_mem] = Ok st /\
     codegen_line st line_jsr_0x30 = Ok st' /\
     process_operand (Basic (BLiteral (PInt 0x30))) = Ok (0x1F, Some (PInt 0x30)) /\
     program st' = program st ++ [PInt 0x7C10; PInt 0x1000; PInt 0x30]) /\
  codegen [line_set_mem; line_jsr_0x30]
  = Ok [0x7D; 0xE1; 0x10; 0x00; 0x00; 0x20; 0x7C; 0x10; 0x10; 0x00; 0x00; 0x30] /\
  codegen [line_jsr_0x30] = Raise (UnboundLocalError "x").
Proof.
  split; [|split].
  - eexists _, _. split; [vm_compute; reflexivity|].
    split; [vm_compute; reflexivity|]. split; reflexivity.
  - vm_compute. reflexivity.
  - vm_compute. reflexivity.
Qed.

(** ** The data directive *)

Lemma slice2_cons {T} (a : T) (data : list T) :
  slice2 (a :: data) = a :: slice2 (tail data).
Proof. by destruct data. Qed.

Lemma make_words_nil : make_words [] = [].
Proof. reflexivity. Qed.

Lemma make_words_one (a : N) : make_words [a] = [N.shiftl a 8].
Proof. unfold make_words. cbn. by rewrite N.lor_0_r. Qed.

Lemma make_words_two (a b : N) (rest : list N) :
  make_words (a :: b :: rest) = N.lor (N.shiftl a 8) b :: make_words rest.
Proof. unfold make_words. cbn [tail]. by rewrite !slice2_cons. Qed.

(** Induction two elements at a time, as the packing proceeds. *)
Lemma pairs_ind {T} (P : list T -> Prop) :
  P [] -> (forall a, P [a]) -> (forall a b rest, P rest -> P (a :: b :: rest)) ->
  forall data, P data.
Proof.
  intros Hnil Hone Htwo.
  assert (H : forall data, P data /\ forall a, P (a :: data)).
  { induction data as [|b rest [IH1 IH2]]; [by split|]. split; [done|]. auto. }
  intros data. apply H.
Qed.

Lemma make_words_length (data : list N) :
  length (make_words data) = Nat.div2 (S (length data)).
Proof.
  induction data as [|a|a b rest IH] using pairs_ind; [done..|].
  rewrite make_words_two. cbn [length Nat.div2]. by rewrite IH.
Qed.

Lemma shiftl_8_low_byte (a : N) : N.land (N.shiftl a 8) 0xFF = 0.
Proof. apply land_shiftl_low. by change (2 ^ 8) with 256. Qed.

Lemma ord_byte (c : ascii) : ord c < 256.
Proof. apply N_ascii_bounded. Qed.

Lemma packed_word_bytes (high low : N) :
  low < 256 ->
  let w := N.lor (N.shiftl high 8) low in
  N.shiftr w 8 = high /\ N.land w 0xFF = low.
Proof.
  intros Hlow w. subst w. rewrite lor_shiftl_low by done.
  rewrite N.shiftl_mul_pow2, N.shiftr_div_pow2.
  change 0xFF with (N.ones 8). rewrite N.land_ones. change (2 ^ 8) with 256.
  split.
  - symmetry. apply N.div_unique with low; lia.
  - symmetry. apply N.mod_unique with high; lia.
Qed.

Lemma parse_data_from (tokens : list datum) (acc : list N) :
  fold_left (fun result token => result ++ datum_parse token) tokens acc
  = acc ++ flat_map datum_parse tokens.
Proof.
  revert acc. induction tokens as [|t tokens IH]; intros acc; cbn.
  - by rewrite app_nil_r.
  - by rewrite IH, <- app_assoc.
Qed.

Lemma parse_data_flat_map (tokens : list datum) :
  parse_data tokens = flat_map datum_parse tokens.
Proof. unfold parse_data. by rewrite parse_data_from. Qed.

(** C5: a DAT statement appends the expansion of its literal list, item by
    item from left to right, as integer words only; a quoted string packs
    its character codes two per word, high character first, the last word's
    low byte zero when the count is odd (["HI"] gives [0x4849]); a numeric
    literal gives one word. *)
Theorem dat_expansion :
  (forall (st : locals) (lbl : string) (data : list datum),
     exists st',
       codegen_line st (Line lbl (Some (DAT data))) = Ok st' /\
       program st' = program st ++ map PInt (flat_map datum_parse data) /\
       Forall (fun w => exists n, w = PInt n) (map PInt (flat_map datum_parse data))) /\
  (forall s, datum_parse (quoted_string s)
             = make_words (map ord (list_ascii_of_string s))) /\
  (make_words [] = [] /\
   (forall a, make_words [a] = [N.shiftl a 8] /\ N.land (N.shiftl a 8) 0xFF = 0) /\
   (forall a b rest,
      make_words (a :: b :: rest) = N.lor (N.shiftl a 8) b :: make_words rest) /\
   (forall data, length (make_words data) = Nat.div2 (S (length data)))) /\
  (forall high low : ascii,
     let w := N.lor (N.shiftl (ord high) 8) (ord low) in
     N.shiftr w 8 = ord high /\ N.land w 0xFF = ord low) /\
  datum_parse (quoted_string "HI") = [0x4849] /\
  (forall n, datum_parse (numeric_literal n) = [n]).
Proof.
  repeat split.
  - eexists. unfold codegen_line; cbn [statement]. split; [reflexivity|].
    cbn [program]. rewrite parse_data_flat_map. split; [done|].
    apply Forall_forall. intros w Hw. apply list_elem_of_fmap in Hw as (n & -> & _).
    by exists n.
  - apply make_words_one.
  - apply shiftl_8_low_byte.
  - apply make_words_two.
  - apply make_words_length.
  - apply packed_word_bytes, ord_byte.
  - apply packed_word_bytes, ord_byte.
Qed.

(** ** The serializer *)

Lemma be16_bytes (w : N) :
  w <= 0xFFFF ->
  N.shiftr w 8 < 256 /\ N.land w 0xFF < 256 /\ w = N.shiftr w 8 * 256 + N.land w 0xFF.
Proof.
  intros Hw. rewrite N.shiftr_div_pow2.
  change 0xFF with (N.ones 8). rewrite N.land_ones. change (2 ^ 8) with 256.
  pose proof (N.div_mod w 256 ltac:(lia)) as Hdm.
  pose proof (N.mod_lt w 256 ltac:(lia)) as Hm.
  repeat split; [|done|lia].
  apply N.Div0.div_lt_upper_bound. lia.
Qed.

Lemma serialize_resolved (words : list N) (acc : list N) :
  Forall (fun w => w <= 0xFFFF) words ->
  serialize acc (map PInt words)
  = Ok (acc ++ flat_map (fun w => [N.shiftr w 8; N.land w 0xFF]) words).
Proof.
  intros Hwords. revert acc.
  induction Hwords as [|w words Hw _ IH]; intros acc; cbn.
  - by rewrite app_nil_r.
  - destruct (N.leb_spec w 0xFFFF) as [_|Hgt]; [|lia]. cbn.
    by rewrite IH, <- app_assoc.
Qed.

(** C9: a resolved program whose words fit in 16 bits serializes to the
    concatenation, in program order, of each word's two bytes, the most
    significant first, and nothing else: byte [2i] and byte [2i+1] are the
    high and the low byte of word [i], and there are twice as many bytes as
    words. *)
Theorem serializer_big_endian (words : list N) :
  Forall (fun w => w <= 0xFFFF) words ->
  exists bytes,
    serialize [] (map PInt words) = Ok bytes /\
    bytes = flat_map (fun w => [N.shiftr w 8; N.land w 0xFF]) words /\
    length bytes = (2 * length words)%nat /\
    Forall (fun byte => byte < 256) bytes /\
    (forall i w, words !! i = Some w ->
       exists hi lo,
         bytes !! (2 * i)%nat = Some hi /\ bytes !! (2 * i + 1)%nat = Some lo /\
         w = hi * 256 + lo) /\
    (forall parsed st,
       generate parsed = Ok st ->
       substitute (labels st) (program st) = Ok (map PInt words) ->
       codegen parsed = Ok bytes).
Proof.
  intros Hwords. eexists. split; [by apply serialize_resolved|].
  cbn [app]. split; [done|]. split; [|split; [|split]].
  - clear Hwords. induction words as [|w words IH]; [done|].
    cbn [flat_map app length]. rewrite IH. lia.
  - induction Hwords as [|w words Hw _ IH]; [by constructor|].
    cbn [flat_map app]. destruct (be16_bytes w Hw) as (Hhi & Hlo & _).
    by repeat constructor.
  - induction Hwords as [|w words Hw _ IH]; intros i v Hi; [done|].
    cbn [flat_map app]. destruct i as [|i].
    + assert (v = w) as -> by (cbn in Hi; congruence).
      destruct (be16_bytes w Hw) as (_ & _ & Hsum).
      by eexists _, _.
    + cbn in Hi. destruct (IH i v Hi) as (hi & lo & Hhi & Hlo & Hsum).
      exists hi, lo. replace (2 * S i)%nat with (S (S (2 * i))) by lia.
      by repeat split.
  - intros parsed st Hgen Hsub. unfold codegen. rewrite Hgen. cbn.
    rewrite Hsub. cbn. by apply serialize_resolved.
Qed.

Lemma serializer_big_endian_witness :
  exists bytes,
    serialize [] (map PInt [0x7C01; 0x0030]) = Ok bytes /\
    bytes = [0x7C; 0x01; 0x00; 0x30] /\
    length bytes = 4%nat.
Proof.
  destruct (serializer_big_endian [0x7C01; 0x0030]) as (bytes & Hser & Hbytes & Hlen & _).
  - repeat constructor; lia.
  - exists bytes. repeat split; [exact Hser | exact Hbytes | exact Hlen].
Defined.

(** ** Generation: labels and program words *)

Lemma codegen_line_inv (st st' : locals) (ln : line) :
  codegen_line st ln = Ok st' ->
  labels st' = bind_label st ln /\
  exists added, program st' = program st ++ added.
Proof.
  unfold codegen_line. fold (bind_label st ln).
  destruct (statement ln) as [[m first second|data]|].
  - destruct (String.eqb _ "JSR").
    + destruct (process_operand first) as [[b yw]|]; [cbn|done].
      destruct (read_x st) as [xw|]; [cbn|done].
      intros [= <-]. cbn. split; [done|]. rewrite <- app_assoc. by eexists.
    + destruct (getitem OPCODES _) as [o|]; [cbn|done].
      destruct (process_operand first) as [[a xw]|]; [cbn|done].
      destruct (process_second second) as [[b yw]|]; [cbn|done].
      intros [= <-]. cbn. split; [done|]. by eexists.
  - intros [= <-]. cbn. split; [done|]. by eexists.
  - intros [= <-]. cbn. split; [done|]. exists []. by rewrite app_nil_r.
Qed.

Lemma generate_from_app (st : locals) (pre post : list line) :
  generate_from st (pre ++ post)
  = generate_from st pre ≫= (fun st' => generate_from st' post).
Proof.
  revert st. induction pre as [|ln pre IH]; intros st; [done|].
  cbn. destruct (codegen_line st ln) as [st'|]; [cbn; apply IH | done].
Qed.

Lemma generate_from_prefix (st st' : locals) (parsed : list line) :
  generate_from st parsed = Ok st' ->
  exists added, program st' = program st ++ added.
Proof.
  revert st. induction parsed as [|ln rest IH]; intros st; cbn.
  - intros [= <-]. exists []. by rewrite app_nil_r.
  - destruct (codegen_line st ln) as [st1|] eqn:Hline; [cbn|done]. intros Hrest.
    destruct (codegen_line_inv _ _ _ Hline) as (_ & added1 & Hadded1).
    destruct (IH _ Hrest) as (added2 & ->).
    exists (added1 ++ added2). by rewrite Hadded1, app_assoc.
Qed.

(** Lines that do not define [name] leave its binding alone. *)
Lemma generate_from_labels_other (st st' : locals) (parsed : list line) (name : string) :
  Forall (fun ln => label ln <> name) parsed ->
  generate_from st parsed = Ok st' ->
  labels st' !! name = labels st !! name.
Proof.
  intros Hother. revert st. induction Hother as [|ln rest Hln _ IH]; intros st; cbn.
  - by intros [= <-].
  - destruct (codegen_line st ln) as [st1|] eqn:Hline; [cbn|done]. intros Hrest.
    rewrite (IH _ Hrest). destruct (codegen_line_inv _ _ _ Hline) as (-> & _).
    unfold bind_label. destruct (String.eqb _ ""); [done|].
    by rewrite lookup_insert_ne.
Qed.

(** The binding that a line defining a label makes: the length of the
    program before that line's statement.  It is the binding of the final
    table when no later line defines the label again. *)
Lemma definition_binding (pre post : list line) (ln : line) (st : locals) :
  label ln <> "" ->
  generate (pre ++ ln :: post) = Ok st ->
  exists st0 st1,
    generate pre = Ok st0 /\
    codegen_line st0 ln = Ok st1 /\
    generate_from st1 post = Ok st /\
    labels st1 !! label ln = Some (N.of_nat (length (program st0))) /\
    (exists added, program st1 = program st0 ++ added) /\
    (exists added, program st = program st0 ++ added) /\
    (Forall (fun ln' => label ln' <> label ln) post ->
     labels st !! label ln = Some (N.of_nat (length (program st0)))).
Proof.
  intros Hlabel. unfold generate. rewrite generate_from_app.
  destruct (generate_from locals_init pre) as [st0|]; [cbn|done].
  destruct (codegen_line st0 ln) as [st1|] eqn:Hline; [cbn|done]. intros Hrest.
  exists st0, st1. destruct (codegen_line_inv _ _ _ Hline) as (Hlabels & added1 & Hadded1).
  assert (Hbound : labels st1 !! label ln = Some (N.of_nat (length (program st0)))).
  { rewrite Hlabels. unfold bind_label.
    destruct (String.eqb_spec (label ln) ""); [done|]. apply lookup_insert_eq. }
  repeat split; try done.
  - by exists added1.
  - destruct (generate_from_prefix _ _ _ Hrest) as (added2 & ->).
    exists (added1 ++ added2). by rewrite Hadded1, app_assoc.
  - intros Hpost. by rewrite (generate_from_labels_other _ _ _ _ Hpost Hrest).
Qed.

(** ** Label substitution *)

Lemma substitute_inv (lbls : gmap string N) (prog resolved : list pyval) :
  substitute lbls prog = Ok resolved ->
  length resolved = length prog /\
  (forall i name, prog !! i = Some (PStr name) ->
     exists a, lbls !! name = Some a /\ resolved !! i = Some (PInt a)) /\
  (forall i n, prog !! i = Some (PInt n) -> resolved !! i = Some (PInt n)).
Proof.
  revert resolved. induction prog as [|c rest IH]; intros resolved; cbn.
  - intros [= <-]. by repeat split.
  - destruct (substitute_word lbls c) as [c'|] eqn:Hc; [cbn|done].
    destruct (substitute lbls rest) as [rest'|]; [cbn|done].
    intros [= <-]. destruct (IH rest' eq_refl) as (Hlen & Hstr & Hint).
    split; [cbn; by rewrite Hlen|]. split.
    + intros [|i] name Hi; [|by apply Hstr]. cbn in Hi. injection Hi as ->.
      cbn in Hc. unfold getitem in Hc.
      destruct (lbls !! name) as [a|]; [|done]. injection Hc as <-. by exists a.
    + intros [|i] n Hi; [|by apply Hint]. cbn in Hi. injection Hi as ->.
      cbn in Hc. by injection Hc as <-.
Qed.

Lemma substitute_resolved (lbls : gmap string N) (prog resolved : list pyval) :
  substitute lbls prog = Ok resolved -> exists words, resolved = map PInt words.
Proof.
  revert resolved. induction prog as [|c rest IH]; intros resolved; cbn.
  - intros [= <-]. by exists [].
  - destruct (substitute_word lbls c) as [c'|] eqn:Hc; [cbn|done].
    destruct (substitute lbls rest) as [rest'|]; [cbn|done].
    intros [= <-]. destruct (IH rest' eq_refl) as (words & ->).
    destruct c as [n|name]; cbn in Hc.
    + injection Hc as <-. by exists (n :: words).
    + unfold getitem in Hc. destruct (lbls !! name) as [a|]; [|done].
      injection Hc as <-. by exists (a :: words).
Qed.

Lemma substitute_undefined (lbls : gmap string N) (prog : list pyval)
    (i : nat) (name : string) :
  prog !! i = Some (PStr name) -> lbls !! name = None ->
  exists name',
    substitute lbls prog = Raise (KeyError name') /\
    lbls !! name' = None /\ PStr name' ∈ prog.
Proof.
  revert i. induction prog as [|c rest IH]; intros i Hi Hname; [done|].
  assert (Hrest : forall i', rest !! i' = Some (PStr name) ->
            forall c', substitute_word lbls c = Ok c' ->
            exists name', substitute lbls (c :: rest) = Raise (KeyError name') /\
              lbls !! name' = None /\ PStr name' ∈ c :: rest).
  { intros i' Hi' c' Hc. destruct (IH i' Hi' Hname) as (name' & Hsub & Hnone & Hin).
    exists name'. cbn. rewrite Hc, Hsub. cbn. split; [done|]. split; [done|].
    by apply list_elem_of_further. }
  destruct c as [n|s].
  - destruct i as [|i']; [done|]. by apply (Hrest i' Hi (PInt n)).
  - destruct (lbls !! s) as [a|] eqn:Hs.
    + destruct i as [|i'].
      * cbn in Hi. congruence.
      * apply (Hrest i' Hi (PInt a)). cbn. unfold getitem. by rewrite Hs.
    + exists s. cbn. unfold getitem. rewrite Hs. cbn. split; [done|]. split; [done|].
      apply list_elem_of_here.
Qed.

(** C6: when the generated program holds a symbolic word whose name the
    label table does not bind, the substitution loop raises [KeyError] and
    [codegen] ends there: it returns no bytes. *)
Theorem undefined_label_fails (parsed : list line) (st : locals)
    (i : nat) (name : string) :
  generate parsed = Ok st ->
  program st !! i = Some (PStr name) ->
  labels st !! name = None ->
  exists name',
    substitute (labels st) (program st) = Raise (KeyError name') /\
    labels st !! name' = None /\
    PStr name' ∈ program st /\
    codegen parsed = Raise (KeyError name') /\
    forall bytes, codegen parsed <> Ok bytes.
Proof.
  intros Hgen Hi Hname.
  destruct (substitute_undefined _ _ _ _ Hi Hname) as (name' & Hsub & Hnone & Hin).
  assert (Hcg : codegen parsed = Raise (KeyError name')).
  { unfold codegen. rewrite Hgen. cbn. by rewrite Hsub. }
  exists name'. repeat split; try done. intros bytes. by rewrite Hcg.
Qed.

Lemma undefined_label_fails_witness :
  exists name',
    substitute ∅ [PInt 0x7DC1; PStr "crash"] = Raise (KeyError name') /\
    (∅ : gmap string N) !! name' = None /\
    PStr name' ∈ [PInt 0x7DC1; PStr "crash"] /\
    codegen [line_set_pc_crash] = Raise (KeyError name') /\
    forall bytes, codegen [line_set_pc_crash] <> Ok bytes.
Proof.
  apply (undefined_label_fails [line_set_pc_crash]
           {| labels := ∅; program := [PInt 0x7DC1; PStr "crash"]; x := Some None |}
           1 "crash").
  - vm_compute. reflexivity.
  - reflexivity.
  - reflexivity.
Defined.

(** ** Label resolution *)

(** C4: a line that defines a label binds it to the length of the program
    before the line's own statement appends words; the substitution then
    replaces every symbolic word by the address that the table binds to its
    name and leaves integers alone, so that all references to one label, those
    generated before its definition and those generated after it, resolve to
    the same address: the one bound at the line, when no later line defines
    the label again. *)
Theorem label_resolution (pre post : list line) (ln : line) (st : locals)
    (resolved : list pyval) :
  label ln <> "" ->
  generate (pre ++ ln :: post) = Ok st ->
  substitute (labels st) (program st) = Ok resolved ->
  exists st0 st1 addr,
    generate pre = Ok st0 /\
    codegen_line st0 ln = Ok st1 /\
    addr = N.of_nat (length (program st0)) /\
    labels st1 !! label ln = Some addr /\
    (exists added, program st1 = program st0 ++ added) /\
    (exists added, program st = program st0 ++ added) /\
    length resolved = length (program st) /\
    (forall i name, program st !! i = Some (PStr name) ->
       exists a, labels st !! name = Some a /\ resolved !! i = Some (PInt a)) /\
    (forall i n, program st !! i = Some (PInt n) -> resolved !! i = Some (PInt n)) /\
    (forall i j name,
       program st !! i = Some (PStr name) -> program st !! j = Some (PStr name) ->
       resolved !! i = resolved !! j) /\
    (Forall (fun ln' => label ln' <> label ln) post ->
     labels st !! label ln = Some addr /\
     forall i, program st !! i = Some (PStr (label ln)) ->
               resolved !! i = Some (PInt addr)).
Proof.
  intros Hlabel Hgen Hsub.
  destruct (definition_binding pre post ln st Hlabel Hgen)
    as (st0 & st1 & Hpre & Hline & _ & Hst1 & Hadd1 & Hadd & Hlast).
  destruct (substitute_inv _ _ _ Hsub) as (Hlen & Hstr & Hint).
  exists st0, st1, (N.of_nat (length (program st0))).
  do 9 (split; [done|]). split.
  - intros i j name Hi Hj.
    destruct (Hstr i name Hi) as (a & Ha & ->).
    destruct (Hstr j name Hj) as (a' & Ha' & ->). congruence.
  - intros Hpost. split; [by apply Hlast|]. intros i Hi.
    destruct (Hstr i _ Hi) as (a & Ha & ->). rewrite (Hlast Hpost) in Ha. congruence.
Qed.

Lemma label_resolution_witness :
  let resolved := [PInt 0x7DC1; PInt 2; PInt 0x8401; PInt 0x7DC1; PInt 2] in
  exists st0 st1 addr,
    generate [line_set_pc_loop] = Ok st0 /\
    codegen_line st0 line_loop_set_a = Ok st1 /\
    addr = N.of_nat (length (program st0)) /\
    labels st1 !! "loop" = Some addr /\
    (exists added, program st1 = program st0 ++ added) /\
    (exists added, program locals_loop = program st0 ++ added) /\
    length resolved = length (program locals_loop) /\
    (forall i name, program locals_loop !! i = Some (PStr name) ->
       exists a, labels locals_loop !! name = Some a /\ resolved !! i = Some (PInt a)) /\
    (forall i n, program locals_loop !! i = Some (PInt n) ->
       resolved !! i = Some (PInt n)) /\
    (forall i j name,
       program locals_loop !! i = Some (PStr name) ->
       program locals_loop !! j = Some (PStr name) ->
       resolved !! i = resolved !! j) /\
    (Forall (fun ln' => label ln' <> "loop") [line_set_pc_loop] ->
     labels locals_loop !! "loop" = Some addr /\
     forall i, program locals_loop !! i = Some (PStr "loop") ->
               resolved !! i = Some (PInt addr)).
Proof.
  apply (label_resolution [line_set_pc_loop] [line_set_pc_loop] line_loop_set_a
           locals_loop).
  - discriminate.
  - vm_compute. reflexivity.
  - vm_compute. reflexivity.
Defined.

(** ** Duplicate label definitions *)

(** The statement of a line acts on the program and on [x] only. *)
Lemma codegen_line_lockstep (st1 st2 : locals) (ln1 ln2 : line) :
  program st1 = program st2 -> x st1 = x st2 -> statement ln1 = statement ln2 ->
  outcome_rel
    (fun a b => program a = program b /\ x a = x b /\
                labels a = bind_label st1 ln1 /\ labels b = bind_label st2 ln2)
    (codegen_line st1 ln1) (codegen_line st2 ln2).
Proof.
  intros Hprog Hx Hstmt. unfold codegen_line, read_x.
  fold (bind_label st1 ln1). fold (bind_label st2 ln2).
  rewrite <- Hstmt, <- Hprog, <- Hx.
  destruct (statement ln1) as [[m first second|data]|]; [|by cbn..].
  destruct (String.eqb _ "JSR").
  - destruct (process_operand first) as [[b yw]|]; [cbn|done].
    destruct (x st1) as [xw|]; by cbn.
  - destruct (getitem OPCODES _) as [o|]; [cbn|done].
    destruct (process_operand first) as [[a xw]|]; [cbn|done].
    destruct (process_second second) as [[b yw]|]; by cbn.
Qed.

Lemma codegen_line_agree (name : string) (st1 st2 : locals) (ln : line) :
  agree_except name st1 st2 ->
  outcome_rel (agree_except name) (codegen_line st1 ln) (codegen_line st2 ln).
Proof.
  intros (Hprog & Hx & Hl).
  pose proof (codegen_line_lockstep st1 st2 ln ln Hprog Hx eq_refl) as Hstep.
  destruct (codegen_line st1 ln) as [a|], (codegen_line st2 ln) as [b|]; try done.
  destruct Hstep as (Hp & Hxx & Ha & Hb). repeat split; try done.
  intros k Hk. rewrite Ha, Hb. unfold bind_label. rewrite Hprog.
  destruct (String.eqb _ ""); [by apply Hl|].
  destruct (decide (label ln = k)) as [->|Hne].
  - by rewrite !lookup_insert_eq.
  - rewrite !lookup_insert_ne by done. by apply Hl.
Qed.

Lemma generate_from_agree (name : string) (parsed : list line) (st1 st2 : locals) :
  agree_except name st1 st2 ->
  outcome_rel (agree_except name) (generate_from st1 parsed) (generate_from st2 parsed).
Proof.
  revert st1 st2. induction parsed as [|ln rest IH]; intros st1 st2 Hagree; [done|].
  cbn. pose proof (codegen_line_agree name st1 st2 ln Hagree) as Hstep.
  destruct (codegen_line st1 ln) as [a|], (codegen_line st2 ln) as [b|]; try done.
  cbn. by apply IH.
Qed.

(** A line that defines [name] makes such states equal again. *)
Lemma codegen_line_rebind (name : string) (s : option stmt) (st1 st2 : locals) :
  name <> "" -> agree_except name st1 st2 ->
  codegen_line st1 (Line name s) = codegen_line st2 (Line name s).
Proof.
  intros Hname (Hprog & Hx & Hl).
  pose proof (codegen_line_lockstep st1 st2 (Line name s) (Line name s) Hprog Hx eq_refl)
    as Hstep.
  destruct (codegen_line st1 _) as [[la pa xa]|], (codegen_line st2 _) as [[lb pb xb]|];
    try done; [|by rewrite Hstep].
  cbn in Hstep. destruct Hstep as (-> & -> & -> & ->). f_equal. f_equal.
  unfold bind_label. cbn [label]. rewrite Hprog.
  destruct (String.eqb_spec name ""); [done|].
  apply map_eq. intros k. destruct (decide (name = k)) as [->|Hne].
  - by rewrite !lookup_insert_eq.
  - rewrite !lookup_insert_ne by done. apply Hl. congruence.
Qed.

(** Dropping the label definition of a line changes the table at most at
    that label. *)
Lemma codegen_line_drop_label (name : string) (s : option stmt) (st : locals) :
  outcome_rel (agree_except name)
    (codegen_line st (Line name s)) (codegen_line st (Line "" s)).
Proof.
  pose proof (codegen_line_lockstep st st (Line name s) (Line "" s) eq_refl eq_refl eq_refl)
    as Hstep.
  destruct (codegen_line st (Line name s)) as [a|], (codegen_line st (Line "" s)) as [b|];
    try done.
  destruct Hstep as (Hp & Hxx & Ha & Hb). repeat split; try done.
  intros k Hk. rewrite Ha, Hb. unfold bind_label. cbn [label String.eqb].
  destruct (String.eqb name ""); [done|]. by rewrite lookup_insert_ne.
Qed.

Lemma generate_earlier_definition (pre mid post : list line) (name : string)
    (s1 s2 : option stmt) :
  name <> "" ->
  generate (pre ++ Line name s1 :: mid ++ Line name s2 :: post)
  = generate (pre ++ Line "" s1 :: mid ++ Line name s2 :: post).
Proof.
  intros Hname. unfold generate. rewrite !generate_from_app.
  destruct (generate_from locals_init pre) as [st0|]; [cbn|done].
  pose proof (codegen_line_drop_label name s1 st0) as Hstep.
  destruct (codegen_line st0 (Line name s1)) as [a|],
           (codegen_line st0 (Line "" s1)) as [b|]; try done; [cbn|by rewrite Hstep].
  rewrite !generate_from_app.
  pose proof (generate_from_agree name mid a b Hstep) as Hmid.
  destruct (generate_from a mid) as [a'|], (generate_from b mid) as [b'|];
    try done; [cbn|by rewrite Hmid].
  by rewrite (codegen_line_rebind name s2 a' b' Hname Hmid).
Qed.

(** C10: a label defined on two lines (or more) is no error: the earlier
    definition is without effect on the outcome of [codegen], the table
    ends up binding the name to the address recorded at the last line that
    defines it, and every reference to the name, wherever it occurs, is
    replaced by that address. *)
Theorem duplicate_label_last_wins (pre mid post : list line) (name : string)
    (s1 s2 : option stmt) :
  name <> "" ->
  Forall (fun ln' => label ln' <> name) post ->
  let parsed := pre ++ Line name s1 :: mid ++ Line name s2 :: post in
  codegen parsed = codegen (pre ++ Line "" s1 :: mid ++ Line name s2 :: post) /\
  forall st, generate parsed = Ok st ->
    exists st_last,
      generate (pre ++ Line name s1 :: mid) = Ok st_last /\
      let addr := N.of_nat (length (program st_last)) in
      labels st !! name = Some addr /\
      substitute_word (labels st) (PStr name) = Ok (PInt addr) /\
      forall resolved, substitute (labels st) (program st) = Ok resolved ->
        forall i, program st !! i = Some (PStr name) ->
                  resolved !! i = Some (PInt addr).
Proof.
  intros Hname Hpost parsed. split.
  - unfold codegen, parsed. by rewrite generate_earlier_definition.
  - intros st Hgen. unfold parsed in Hgen.
    assert (Hsplit : pre ++ Line name s1 :: mid ++ Line name s2 :: post
                     = (pre ++ Line name s1 :: mid) ++ Line name s2 :: post)
      by (by rewrite <- app_assoc).
    rewrite Hsplit in Hgen.
    destruct (definition_binding _ post (Line name s2) st Hname Hgen)
      as (st0 & st1 & Hpre & _ & _ & _ & _ & _ & Hlast).
    pose proof (Hlast Hpost) as Hst. cbn in Hst.
    exists st0. split; [done|]. cbn zeta. split; [done|]. split.
    + cbn. unfold getitem. by rewrite Hst.
    + intros resolved Hsub i Hi.
      destruct (substitute_inv _ _ _ Hsub) as (_ & Hstr & _).
      destruct (Hstr i name Hi) as (a & Ha & ->). congruence.
Qed.

Lemma duplicate_label_last_wins_witness :
  let parsed :=
    [] ++ Line "loop" stmt_set_pc_loop
       :: [] ++ Line "loop" stmt_set_a_1 :: [line_set_pc_loop] in
  codegen parsed
  = codegen ([] ++ Line "" stmt_set_pc_loop
                :: [] ++ Line "loop" stmt_set_a_1 :: [line_set_pc_loop]) /\
  forall st, generate parsed = Ok st ->
    exists st_last,
      generate ([] ++ Line "loop" stmt_set_pc_loop :: []) = Ok st_last /\
      let addr := N.of_nat (length (program st_last)) in
      labels st !! "loop" = Some addr /\
      substitute_word (labels st) (PStr "loop") = Ok (PInt addr) /\
      forall resolved, substitute (labels st) (program st) = Ok resolved ->
        forall i, program st !! i = Some (PStr "loop") ->
                  resolved !! i = Some (PInt addr).
Proof.
  apply (duplicate_label_last_wins [] [] [line_set_pc_loop] "loop"
           stmt_set_pc_loop stmt_set_a_1).
  - discriminate.
  - repeat constructor. discriminate.
Defined.

(** [:loop SET PC, loop], [:loop SET A, 1], [SET PC, loop]: both references
    assemble to address 2, that of the second definition. *)
Example codegen_duplicate_label :
  codegen [Line "loop" stmt_set_pc_loop; Line "loop" stmt_set_a_1; line_set_pc_loop]
  = Ok [0x7D; 0xC1; 0x00; 0x02; 0x84; 0x01; 0x7D; 0xC1; 0x00; 0x02].
Proof. vm_compute. reflexivity. Qed.

(** * Further properties of the code *)

(** ** [process_operand] *)

(** X1: every field code that [process_operand] returns fits in six bits,
    and it returns an extra word exactly with the field codes after which
    the DCPU-16 reads a next word. *)
Theorem field_code_and_extra_word (o : operand) (c : N) (w : option pyval) :
  process_operand o = Ok (c, w) ->
  c <= 0x3F /\ (is_Some w <-> takes_next_word c = true).
Proof.
  intros Ho. split; [by apply (process_operand_field_code o c w)|].
  assert (Hnone : forall c', takes_next_word c' = false ->
            is_Some (@None pyval) <-> takes_next_word c' = true).
  { intros c' ->. split; [by intros [? ?] | done]. }
  assert (Hsome : forall c' (v : pyval), takes_next_word c' = true ->
            is_Some (Some v) <-> takes_next_word c' = true).
  { intros c' v ->. split; [done | by eexists]. }
  destruct o as [[r|s|[n|s]]|[l r|[r|s|l]]]; cbn in Ho.
  - destruct r; vm_compute in Ho; try discriminate;
      injection Ho as <- <-; by apply Hnone.
  - destruct s; vm_compute in Ho; injection Ho as <- <-; by apply Hnone.
  - destruct (N.ltb_spec n 0x20) as [Hlt|Hge]; injection Ho as <- <-.
    + apply Hnone. rewrite lor_0x20_small by done. unfold takes_next_word.
      destruct (N.leb_spec (0x20 + n) 0x17); [lia|].
      destruct (N.eqb_spec (0x20 + n) 0x1E); [lia|].
      destruct (N.eqb_spec (0x20 + n) 0x1F); [lia|]. by rewrite andb_false_r.
    + by apply Hsome.
  - destruct (negb _); cbn in Ho; [|discriminate]. injection Ho as <- <-.
    by apply Hsome.
  - destruct r; vm_compute in Ho; try discriminate;
      injection Ho as <- <-; by apply Hsome.
  - destruct r; vm_compute in Ho; try discriminate;
      injection Ho as <- <-; by apply Hnone.
  - injection Ho as <- <-. by apply Hsome.
  - injection Ho as <- <-. by apply Hsome.
Qed.

Lemma field_code_and_extra_word_witness :
  0x12 <= 0x3F /\ (is_Some (Some (PStr "table")) <-> takes_next_word 0x12 = true).
Proof.
  apply (field_code_and_extra_word (Indirect (IExpr (PStr "table") Reg.C))
           0x12 (Some (PStr "table"))).
  vm_compute. reflexivity.
Defined.

(** X2: a plain register operand encodes as its [IDENTIFIERS] code, without
    extra word, for every register of the grammar but [O]: the grammar
    accepts [O], the table has no entry for it, and the lookup raises
    [KeyError], as does the assembly of any source that uses it. *)
Theorem basic_register_operand (r : register) :
  (r <> Reg.O ->
     exists c, IDENTIFIERS !! register_name r = Some c /\
               process_operand (Basic (BRegister r)) = Ok (c, None)) /\
  (r = Reg.O ->
     process_operand (Basic (BRegister r)) = Raise (KeyError "O") /\
     forall parsed ln, ln ∈ parsed -> uses_operand ln (Basic (BRegister r)) ->
                       is_Raise (codegen parsed)).
Proof.
  split.
  - intros Hr. destruct r; try done; eexists; split; vm_compute; reflexivity.
  - intros ->. split; [reflexivity|]. intros parsed ln Hin Huse.
    by apply (codegen_operand_fails parsed ln _ Hin Huse).
Qed.

Lemma basic_register_operand_witness :
  (exists c, IDENTIFIERS !! "SP" = Some c /\
             process_operand (Basic (BRegister Reg.SP)) = Ok (c, None)) /\
  process_operand (Basic (BRegister Reg.O)) = Raise (KeyError "O").
Proof.
  split.
  - destruct (basic_register_operand Reg.SP) as [Hsp _]. apply Hsp. discriminate.
  - destruct (basic_register_operand Reg.O) as [_ Ho]. by apply Ho.
Defined.

(** X3: an indirect register operand, and an indirect [literal + register]
    operand, pass the assertion exactly for the eight named registers; the
    field codes are then within [0x08]-[0x0F] and [0x10]-[0x17]. *)
Theorem indirect_register_accepted_iff (r : register) (l : pyval) :
  ((exists c w, process_operand (Indirect (IBasic (BRegister r))) = Ok (c, w))
     <-> r ∈ named_registers) /\
  ((exists c w, process_operand (Indirect (IExpr l r)) = Ok (c, w))
     <-> r ∈ named_registers) /\
  (forall c w, process_operand (Indirect (IBasic (BRegister r))) = Ok (c, w) ->
     0x08 <= c <= 0x0F /\ w = None) /\
  (forall c w, process_operand (Indirect (IExpr l r)) = Ok (c, w) ->
     0x10 <= c <= 0x17 /\ w = Some l).
Proof.
  assert (Hdec : r ∈ named_registers \/ r ∉ named_registers).
  { unfold named_registers.
    destruct r; first
      [ left; by repeat constructor
      | right; intros H;
        repeat (apply elem_of_cons in H as [H|H]; [discriminate|]);
        by apply elem_of_nil in H ]. }
  split; [|split; [|split]].
  - split.
    + intros (c & w & Hc). destruct Hdec as [?|Hout]; [done|].
      unfold process_operand in Hc.
      by rewrite (other_register_rejected r Hout) in Hc.
    + intros Hr. destruct (named_register_index r Hr) as (Hin & idx & Hidx & _).
      eexists _, _. unfold process_operand, getitem. by rewrite Hin, Hidx.
  - split.
    + intros (c & w & Hc). destruct Hdec as [?|Hout]; [done|].
      unfold process_operand in Hc.
      by rewrite (other_register_rejected r Hout) in Hc.
    + intros Hr. destruct (named_register_index r Hr) as (Hin & idx & Hidx & _).
      eexists _, _. unfold process_operand, getitem. by rewrite Hin, Hidx.
  - intros c w Hc. destruct r; vm_compute in Hc; try discriminate;
      injection Hc as <- <-; (split; [lia | done]).
  - intros c w Hc. destruct r; vm_compute in Hc; try discriminate;
      injection Hc as <- <-; (split; [lia | done]).
Qed.

Lemma indirect_register_accepted_iff_witness :
  (exists c w, process_operand (Indirect (IBasic (BRegister Reg.X))) = Ok (c, w)) /\
  0x10 <= 0x13 <= 0x17 /\ Some (PInt 2) = Some (PInt 2).
Proof.
  destruct (indirect_register_accepted_iff Reg.X (PInt 2)) as (Hreg & _ & _ & Hexpr).
  split.
  - apply Hreg. unfold named_registers. repeat constructor.
  - apply (Hexpr 0x13 (Some (PInt 2))). vm_compute. reflexivity.
Defined.

(** ** Extra words and the label table *)

(** The extra word of an operand that a line uses is in the program after
    the line. *)
Lemma codegen_line_extra_word (st st' : locals) (ln : line) (o : operand)
    (c : N) (w : pyval) :
  uses_operand ln o -> process_operand o = Ok (c, Some w) ->
  codegen_line st ln = Ok st' -> w ∈ program st'.
Proof.
  unfold uses_operand, codegen_line.
  destruct (statement ln) as [[m first second|data]|]; [|done..].
  intros Huse Ho. destruct (String.eqb_spec (mnemonic_name m) "JSR") as [Hm|Hm].
  - destruct Huse as [->|[? _]]; [|done]. rewrite Ho. cbn.
    destruct (read_x st) as [xw|]; [cbn|done]. intros [= <-]. cbn.
    repeat (rewrite elem_of_app || rewrite elem_of_cons). naive_solver.
  - destruct (getitem OPCODES _) as [opc|]; [cbn|done].
    destruct Huse as [->|[_ ->]].
    + rewrite Ho. cbn. destruct (process_second second) as [[b yw]|]; [cbn|done].
      intros [= <-]. cbn. repeat (rewrite elem_of_app || rewrite elem_of_cons). naive_solver.
    + destruct (process_operand first) as [[a xw]|]; [cbn|done]. rewrite Ho. cbn.
      intros [= <-]. cbn. repeat (rewrite elem_of_app || rewrite elem_of_cons). naive_solver.
Qed.

Lemma generate_from_extra_word (parsed : list line) (ln : line) (o : operand)
    (c : N) (w : pyval) :
  ln ∈ parsed -> uses_operand ln o -> process_operand o = Ok (c, Some w) ->
  forall st st', generate_from st parsed = Ok st' -> w ∈ program st'.
Proof.
  intros Hin Huse Ho. induction parsed as [|ln' rest IH]; intros st st'.
  - by apply elem_of_nil in Hin.
  - cbn. destruct (codegen_line st ln') as [st1|] eqn:Hline; [cbn|done].
    intros Hrest. apply elem_of_cons in Hin as [<-|Hin]; [|by apply (IH Hin st1)].
    pose proof (codegen_line_extra_word _ _ _ _ _ _ Huse Ho Hline) as Hw.
    destruct (generate_from_prefix _ _ _ Hrest) as (added & ->).
    apply elem_of_app. by left.
Qed.

(** The generation loop binds no address to the empty name. *)
Lemma generate_from_empty_name (parsed : list line) (st st' : locals) :
  labels st !! "" = None -> generate_from st parsed = Ok st' ->
  labels st' !! "" = None.
Proof.
  revert st. induction parsed as [|ln rest IH]; intros st Hst; cbn.
  - by intros [= <-].
  - destruct (codegen_line st ln) as [st1|] eqn:Hline; [cbn|done].
    apply IH. destruct (codegen_line_inv _ _ _ Hline) as (-> & _).
    unfold bind_label. destruct (String.eqb_spec (label ln) ""); [done|].
    by rewrite lookup_insert_ne.
Qed.

(** A source is not assembled when a line of it uses an operand whose extra
    word is a name that no line defines. *)
Lemma codegen_unbound_extra_word (parsed : list line) (ln : line) (o : operand)
    (c : N) (name : string) :
  ln ∈ parsed -> uses_operand ln o -> process_operand o = Ok (c, Some (PStr name)) ->
  (forall st, generate parsed = Ok st -> labels st !! name = None) ->
  is_Raise (codegen parsed).
Proof.
  intros Hin Huse Ho Hunbound. unfold codegen.
  destruct (generate parsed) as [st|] eqn:Hgen; [cbn|done].
  pose proof (generate_from_extra_word parsed ln o c _ Hin Huse Ho _ _ Hgen) as Hw.
  apply list_elem_of_lookup in Hw as [i Hi].
  destruct (substitute_undefined _ _ _ _ Hi (Hunbound st eq_refl))
    as (name' & -> & _). done.
Qed.

(** X4: an indirect stack operation, as in [SET A, [POP]], is never
    assembled: [process_operand] returns field code [0x1E] with the empty
    string as extra word, the label table never binds the empty name, and the
    substitution raises [KeyError]. *)
Theorem indirect_stack_op_fails (s : stack_op) :
  process_operand (Indirect (IBasic (BStackOp s))) = Ok (0x1E, Some (PStr "")) /\
  (forall parsed st, generate parsed = Ok st -> labels st !! "" = None) /\
  (forall parsed ln,
     ln ∈ parsed -> uses_operand ln (Indirect (IBasic (BStackOp s))) ->
     is_Raise (codegen parsed)).
Proof.
  assert (Hempty : forall parsed st, generate parsed = Ok st -> labels st !! "" = None).
  { intros parsed st. by apply generate_from_empty_name. }
  split; [reflexivity|]. split; [done|]. intros parsed ln Hin Huse.
  apply (codegen_unbound_extra_word parsed ln _ 0x1E "" Hin Huse eq_refl).
  apply Hempty.
Qed.

Lemma indirect_stack_op_fails_witness :
  is_Raise (codegen [Line "" (Some (Instruction Op.SET (Basic (BRegister Reg.A))
                       (Some (Indirect (IBasic (BStackOp POP))))))]).
Proof.
  destruct (indirect_stack_op_fails POP) as (_ & _ & Hfail).
  eapply Hfail; [apply list_elem_of_here|]. right. split; [discriminate | reflexivity].
Defined.

Lemma generate_from_label_bound (parsed : list line) (st st' : locals) :
  (forall name a, labels st !! name = Some a -> a <= N.of_nat (length (program st))) ->
  generate_from st parsed = Ok st' ->
  forall name a, labels st' !! name = Some a -> a <= N.of_nat (length (program st')).
Proof.
  revert st. induction parsed as [|ln rest IH]; intros st Hst; cbn.
  - by intros [= <-].
  - destruct (codegen_line st ln) as [st1|] eqn:Hline; [cbn|done].
    apply IH. destruct (codegen_line_inv _ _ _ Hline) as (-> & added & ->).
    intros name a. rewrite length_app. unfold bind_label.
    destruct (String.eqb (label ln) "").
    + intros Ha. specialize (Hst name a Ha). lia.
    + destruct (decide (label ln = name)) as [->|Hne].
      * rewrite lookup_insert_eq. intros [= <-]. lia.
      * rewrite lookup_insert_ne by done. intros Ha. specialize (Hst name a Ha). lia.
Qed.

Lemma generate_from_label_defined (parsed : list line) (st st' : locals) (name : string) :
  generate_from st parsed = Ok st' ->
  is_Some (labels st' !! name) <->
  is_Some (labels st !! name) \/ (name <> "" /\ exists ln, ln ∈ parsed /\ label ln = name).
Proof.
  revert st. induction parsed as [|ln rest IH]; intros st; cbn.
  - intros [= <-]. split; [by left|]. intros [?|(_ & ln & Hin & _)]; [done|].
    by apply elem_of_nil in Hin.
  - destruct (codegen_line st ln) as [st1|] eqn:Hline; [cbn|done]. intros Hrest.
    rewrite (IH _ Hrest). destruct (codegen_line_inv _ _ _ Hline) as (-> & _).
    unfold bind_label. destruct (String.eqb_spec (label ln) "") as [Hl|Hl].
    + split.
      * intros [?|(Hn & ln' & Hin & Heq)]; [by left|]. right. split; [done|].
        exists ln'. split; [by apply list_elem_of_further | done].
      * intros [?|(Hn & ln' & Hin & Heq)]; [by left|].
        apply elem_of_cons in Hin as [->|Hin]; [congruence|]. right. eauto.
    + destruct (decide (label ln = name)) as [Heq|Hne].
      * rewrite Heq, lookup_insert_eq. split; intros _; [|left; by eexists].
        right. split; [congruence|]. exists ln. split; [apply list_elem_of_here | done].
      * rewrite lookup_insert_ne by done. split.
        -- intros [?|(Hn & ln' & Hin & Heq)]; [by left|]. right. split; [done|].
           exists ln'. split; [by apply list_elem_of_further | done].
        -- intros [?|(Hn & ln' & Hin & Heq)]; [by left|].
           apply elem_of_cons in Hin as [->|Hin]; [done|]. right. eauto.
Qed.

(** X5: after the generation loop the label table binds exactly the names
    that some line defines, never the empty name, and every address in it is
    at most the length of the program. *)
Theorem label_table_invariant (parsed : list line) (st : locals) :
  generate parsed = Ok st ->
  (forall name, is_Some (labels st !! name) <->
                name <> "" /\ exists ln, ln ∈ parsed /\ label ln = name) /\
  (forall name a, labels st !! name = Some a ->
                  a <= N.of_nat (length (program st))).
Proof.
  intros Hgen. split.
  - intros name. rewrite (generate_from_label_defined parsed _ _ name Hgen).
    cbn. rewrite lookup_empty. split; [|by right].
    intros [[? ?]|?]; done.
  - apply (generate_from_label_bound parsed locals_init); [|done].
    intros name a. cbn. by rewrite lookup_empty.
Qed.

Lemma label_table_invariant_witness :
  (forall name, is_Some (labels locals_loop !! name) <->
     name <> "" /\
     exists ln, ln ∈ [line_set_pc_loop; line_loop_set_a; line_set_pc_loop] /\
                label ln = name) /\
  (forall name a, labels locals_loop !! name = Some a ->
                  a <= N.of_nat (length (program locals_loop))).
Proof.
  apply (label_table_invariant [line_set_pc_loop; line_loop_set_a; line_set_pc_loop]).
  vm_compute. reflexivity.
Defined.

(** ** The local [x] and [JSR] *)

Lemma codegen_line_x_unbound (st st' : locals) (ln : line) :
  no_two_operand_instruction ln -> x st = None ->
  codegen_line st ln = Ok st' -> x st' = None.
Proof.
  unfold no_two_operand_instruction, codegen_line, read_x.
  destruct (statement ln) as [[m first second|data]|].
  - intros -> Hx. cbn [String.eqb Ascii.eqb Bool.eqb].
    destruct (process_operand first) as [[b yw]|]; [cbn|done]. by rewrite Hx.
  - intros _ Hx [= <-]. done.
  - intros _ Hx [= <-]. done.
Qed.

Lemma generate_from_x_unbound (parsed : list line) (st st' : locals) :
  Forall no_two_operand_instruction parsed -> x st = None ->
  generate_from st parsed = Ok st' -> x st' = None.
Proof.
  intros Hall. revert st. induction Hall as [|ln rest Hln _ IH]; intros st Hx; cbn.
  - by intros [= <-].
  - destruct (codegen_line st ln) as [st1|] eqn:Hline; [cbn|done].
    apply IH. by apply (codegen_line_x_unbound st st1 ln).
Qed.

Lemma bind_Ok {T U} (a : T) (k : T -> outcome U) : Ok a ≫= k = k a.
Proof. reflexivity. Qed.

Lemma generate_from_cons (st : locals) (ln : line) (rest : list line) :
  generate_from st (ln :: rest)
  = codegen_line st ln ≫= (fun st' => generate_from st' rest).
Proof. reflexivity. Qed.

(** X6: a [JSR] that no two-operand instruction precedes is never assembled;
    when the lines before it and its operand raise nothing, the exception
    is the [UnboundLocalError] for [x]. *)
Theorem jsr_before_two_operand_instruction (pre post : list line) (lbl : string)
    (o : operand) (second : option operand) :
  Forall no_two_operand_instruction pre ->
  let parsed := pre ++ Line lbl (Some (Instruction Op.JSR o second)) :: post in
  is_Raise (codegen parsed) /\
  (forall st c w, generate pre = Ok st -> process_operand o = Ok (c, w) ->
                  codegen parsed = Raise (UnboundLocalError "x")).
Proof.
  intros Hpre parsed.
  assert (Hgen : forall st c w, generate pre = Ok st -> process_operand o = Ok (c, w) ->
            generate parsed = Raise (UnboundLocalError "x")).
  { intros st c w Hst Ho. unfold generate, parsed. rewrite generate_from_app.
    unfold generate in Hst. rewrite Hst, bind_Ok, generate_from_cons.
    rewrite (codegen_line_JSR_unbound st lbl o second c w Ho); [done|].
    by apply (generate_from_x_unbound pre locals_init). }
  split.
  - unfold codegen. apply is_Raise_bind.
    destruct (generate pre) as [st|] eqn:Hst.
    + destruct (process_operand o) as [[c w]|] eqn:Ho.
      * by rewrite (Hgen st c w).
      * apply (generate_from_fails parsed (Line lbl (Some (Instruction Op.JSR o second)))).
        -- unfold parsed. apply elem_of_app. right. apply list_elem_of_here.
        -- intros st'. apply (codegen_line_operand_fails st' _ o); [by left|].
           by rewrite Ho.
    + unfold generate, parsed. rewrite generate_from_app.
      unfold generate in Hst. by rewrite Hst.
  - intros st c w Hst Ho. unfold codegen. by rewrite (Hgen st c w).
Qed.

Lemma jsr_before_two_operand_instruction_witness :
  let parsed :=
    [Line "start" None; Line "" (Some (DAT [numeric_literal 7]))]
      ++ Line "" (Some (Instruction Op.JSR (Basic (BLiteral (PStr "start"))) None))
      :: [line_set_a_0x30] in
  is_Raise (codegen parsed) /\
  (forall st c w,
     generate [Line "start" None; Line "" (Some (DAT [numeric_literal 7]))] = Ok st ->
     process_operand (Basic (BLiteral (PStr "start"))) = Ok (c, w) ->
     codegen parsed = Raise (UnboundLocalError "x")).
Proof.
  apply (jsr_before_two_operand_instruction
           [Line "start" None; Line "" (Some (DAT [numeric_literal 7]))]
           [line_set_a_0x30] "" (Basic (BLiteral (PStr "start"))) None).
  repeat constructor.
Defined.

(** ** Substitution and serialization as a whole *)

Lemma substitute_values (lbls : gmap string N) (prog : list pyval) (ws : list N) :
  substitute lbls prog = Ok (map PInt ws) <->
  Forall2 (fun c n => word_value lbls c = Some n) prog ws.
Proof.
  revert ws. induction prog as [|c rest IH]; intros ws; cbn.
  - split.
    + intros [= Hws]. destruct ws; [constructor | discriminate].
    + intros Hall. by apply Forall2_nil_inv_l in Hall as ->.
  - split.
    + destruct (substitute_word lbls c) as [c'|] eqn:Hc; [cbn|done].
      destruct (substitute lbls rest) as [rest'|] eqn:Hrest; [cbn|done].
      destruct ws as [|n ws]; [done|]. cbn. intros [= -> ->].
      constructor; [|by apply IH].
      destruct c as [m|name]; cbn in Hc |- *; [by injection Hc as ->|].
      unfold getitem in Hc. destruct (lbls !! name); [|done].
      cbn in Hc. by injection Hc as ->.
    + intros Hall. apply Forall2_cons_inv_l in Hall as (n & ws' & Hn & Hrest & ->).
      apply IH in Hrest. rewrite Hrest. cbn.
      destruct c as [m|name]; cbn in Hn |- *; [by injection Hn as ->|].
      unfold getitem. by rewrite Hn.
Qed.

Lemma substitute_ints (lbls : gmap string N) (ws : list N) :
  substitute lbls (map PInt ws) = Ok (map PInt ws).
Proof.
  apply substitute_values. induction ws as [|n ws IH]; by constructor.
Qed.

Lemma serialize_ints_inv (ws : list N) (acc bytes : list N) :
  serialize acc (map PInt ws) = Ok bytes ->
  Forall (fun w => w <= 0xFFFF) ws /\ bytes = acc ++ flat_map be16 ws.
Proof.
  revert acc. induction ws as [|w ws IH]; intros acc; cbn.
  - intros [= <-]. split; [constructor | by rewrite app_nil_r].
  - destruct (N.leb_spec w 0xFFFF) as [Hw|Hw]; [cbn|done]. intros Hser.
    destruct (IH _ Hser) as (Hall & ->). split; [by constructor|].
    by rewrite <- app_assoc.
Qed.

Lemma serialize_overflow (ws : list N) (acc : list N) :
  Exists (fun w => 0xFFFF < w) ws ->
  serialize acc (map PInt ws) = Raise struct_error.
Proof.
  intros Hex. revert acc. induction ws as [|w ws IH]; intros acc.
  - by apply Exists_nil in Hex.
  - cbn. destruct (N.leb_spec w 0xFFFF) as [Hw|Hw]; [cbn|done].
    apply IH. apply Exists_cons in Hex as [?|?]; [lia | done].
Qed.

(** X7: [codegen] returns bytes exactly when the generation loop raises
    nothing, every symbolic word of the program is bound in the label table
    and every word, the bound addresses included, is at most [0xFFFF]; the
    bytes are then those of the words, each most significant byte first. *)
Theorem codegen_succeeds_iff (parsed : list line) (bytes : list N) :
  codegen parsed = Ok bytes <->
  exists st ws,
    generate parsed = Ok st /\
    Forall2 (fun c n => word_value (labels st) c = Some n) (program st) ws /\
    Forall (fun w => w <= 0xFFFF) ws /\
    bytes = flat_map be16 ws.
Proof.
  unfold codegen. split.
  - destruct (generate parsed) as [st|]; [cbn|done].
    destruct (substitute (labels st) (program st)) as [resolved|] eqn:Hsub; [cbn|done].
    destruct (substitute_resolved _ _ _ Hsub) as (ws & ->). intros Hser.
    destruct (serialize_ints_inv _ _ _ Hser) as (Hall & ->).
    exists st, ws. by rewrite <- substitute_values.
  - intros (st & ws & -> & Hvals & Hall & ->). cbn.
    apply substitute_values in Hvals. rewrite Hvals. cbn.
    by rewrite serialize_resolved.
Qed.

(** X8: a word above [0xFFFF], a literal or a label address, is not
    truncated: when generation and substitution raise nothing and some
    resolved word exceeds 16 bits, [codegen] raises [struct.error]. *)
Theorem out_of_range_word_raises (parsed : list line) (st : locals) (ws : list N) :
  generate parsed = Ok st ->
  Forall2 (fun c n => word_value (labels st) c = Some n) (program st) ws ->
  Exists (fun w => 0xFFFF < w) ws ->
  codegen parsed = Raise struct_error.
Proof.
  intros Hgen Hvals Hex. unfold codegen. rewrite Hgen. cbn.
  apply substitute_values in Hvals. rewrite Hvals. cbn.
  by apply serialize_overflow.
Qed.

Lemma out_of_range_word_raises_witness :
  codegen [Line "" (Some (Instruction Op.SET (Basic (BRegister Reg.A))
                            (Some (Basic (BLiteral (PInt 0x10000))))))]
  = Raise struct_error.
Proof.
  apply (out_of_range_word_raises _
           {| labels := ∅; program := [PInt 0x7C01; PInt 0x10000]; x := Some None |}
           [0x7C01; 0x10000]).
  - vm_compute. reflexivity.
  - repeat constructor.
  - apply Exists_cons_tl, Exists_cons_hd. reflexivity.
Defined.

(** X9: the output of [codegen] holds two bytes for every word of the
    generated program, each byte below 256. *)
Theorem output_length (parsed : list line) (bytes : list N) :
  codegen parsed = Ok bytes ->
  exists st,
    generate parsed = Ok st /\
    length bytes = (2 * length (program st))%nat /\
    Forall (fun byte => byte < 256) bytes.
Proof.
  unfold codegen. destruct (generate parsed) as [st|]; [cbn|done].
  destruct (substitute (labels st) (program st)) as [resolved|] eqn:Hsub; [cbn|done].
  destruct (substitute_inv _ _ _ Hsub) as (Hlen & _).
  destruct (substitute_resolved _ _ _ Hsub) as (ws & ->). intros Hser.
  destruct (serialize_ints_inv _ _ _ Hser) as (Hall & ->).
  exists st. split; [done|]. rewrite <- Hlen, length_map. clear Hsub Hlen Hser.
  cbn [app].
  induction Hall as [|w ws Hw _ [IHlen IHall]]; [by split|].
  cbn [flat_map be16 app length]. split; [rewrite IHlen; lia|].
  destruct (be16_bytes w Hw) as (Hhi & Hlo & _). by repeat constructor.
Qed.

Lemma output_length_witness :
  exists st,
    generate [line_set_a_0x30] = Ok st /\
    length [0x7C; 0x01; 0x00; 0x30] = (2 * length (program st))%nat /\
    Forall (fun byte => byte < 256) [0x7C; 0x01; 0x00; 0x30].
Proof.
  apply (output_length [line_set_a_0x30]). vm_compute. reflexivity.
Defined.

(** X10: substitution leaves no symbolic word behind: substituting again in
    its result, under any label table, changes nothing and cannot fail. *)
Theorem substitute_idempotent (lbls lbls' : gmap string N) (prog resolved : list pyval) :
  substitute lbls prog = Ok resolved ->
  Forall (fun c => exists n, c = PInt n) resolved /\
  substitute lbls' resolved = Ok resolved.
Proof.
  intros Hsub. destruct (substitute_resolved _ _ _ Hsub) as (ws & ->).
  split; [|apply substitute_ints].
  apply Forall_forall. intros c Hc. apply list_elem_of_fmap in Hc as (n & -> & _).
  by exists n.
Qed.

Lemma substitute_idempotent_witness :
  Forall (fun c => exists n, c = PInt n) [PInt 0x7DC1; PInt 2] /\
  substitute ∅ [PInt 0x7DC1; PInt 2] = Ok [PInt 0x7DC1; PInt 2].
Proof.
  apply (substitute_idempotent (<["loop" := 2]> ∅) ∅ [PInt 0x7DC1; PStr "loop"]).
  vm_compute. reflexivity.
Defined.

(** X11: a source whose lines hold no statement (blank lines, comments,
    label definitions) assembles to the empty byte string, whatever labels
    it defines. *)
Theorem source_without_statements (parsed : list line) :
  Forall (fun ln => statement ln = None) parsed ->
  codegen parsed = Ok [] /\
  exists st, generate parsed = Ok st /\ program st = [] /\ x st = None.
Proof.
  intros Hall.
  assert (Hgen : forall st, exists st',
            generate_from st parsed = Ok st' /\ program st' = program st /\ x st' = x st).
  { induction Hall as [|ln rest Hln _ IH]; intros st; [by exists st|].
    rewrite generate_from_cons. unfold codegen_line. rewrite Hln, bind_Ok.
    destruct (IH {| labels := bind_label st ln; program := program st; x := x st |})
      as (st' & Hst' & Hprog & Hx).
    exists st'. done. }
  destruct (Hgen locals_init) as (st & Hst & Hprog & Hx). cbn in Hprog, Hx.
  split; [|by exists st]. unfold codegen, generate. rewrite Hst, bind_Ok, Hprog.
  reflexivity.
Qed.

Lemma source_without_statements_witness :
  codegen [Line "" None; Line "start" None; Line "start" None] = Ok [].
Proof.
  apply (source_without_statements [Line "" None; Line "start" None; Line "start" None]).
  repeat constructor.
Defined.

(** ** The instruction word in the program *)

Lemma OPCODES_positive (m : mnemonic) (o : N) :
  OPCODES !! mnemonic_name m = Some o -> o <> 0.
Proof. destruct m; vm_compute; intros [= <-] || discriminate; done. Qed.

Lemma instruction_word_16_bits (o a b : N) :
  o < 16 -> a <= 0x3F -> b <= 0x3F -> instruction_word o a b <= 0xFFFF.
Proof. intros Ho Ha Hb. rewrite instruction_word_mul. lia. Qed.

Lemma option_lists_length (xw yw : option pyval) :
  (length (option_list xw ++ option_list yw) <= 2)%nat.
Proof. destruct xw, yw; cbn; lia. Qed.

(** X12: every instruction line that the generator accepts appends one
    instruction word and at most two further words; the instruction word
    fits in 16 bits and its bit fields decode to what was encoded: opcode
    [0] and a-field [1] for [JSR], the non-zero [OPCODES] entry and the
    field codes of the two operands otherwise. *)
Theorem emitted_instruction_word (st st' : locals) (lbl : string) (m : mnemonic)
    (first : operand) (second : option operand) :
  codegen_line st (Line lbl (Some (Instruction m first second))) = Ok st' ->
  exists W extra,
    program st' = program st ++ PInt W :: extra /\
    W <= 0xFFFF /\ (length extra <= 2)%nat /\
    (mnemonic_name m = "JSR" ->
       field_o W = 0 /\ field_a W = 1 /\
       exists yw, process_operand first = Ok (field_b W, yw)) /\
    (mnemonic_name m <> "JSR" ->
       OPCODES !! mnemonic_name m = Some (field_o W) /\ field_o W <> 0 /\
       (exists xw, process_operand first = Ok (field_a W, xw)) /\
       (exists yw, process_second second = Ok (field_b W, yw))).
Proof.
  unfold codegen_line. cbn [statement label].
  destruct (String.eqb_spec (mnemonic_name m) "JSR") as [Hm|Hm].
  - destruct (process_operand first) as [[b yw]|] eqn:Hfirst; [cbn|done].
    destruct (read_x st) as [xw|]; [cbn|done]. intros [= <-]. cbn [program].
    pose proof (process_operand_field_code _ _ _ Hfirst) as Hb.
    exists (instruction_word 0 1 b), (option_list xw ++ option_list yw).
    split; [by rewrite <- app_assoc|].
    split; [apply instruction_word_16_bits; lia|].
    split; [apply option_lists_length|]. split; [|done]. intros _.
    rewrite field_o_word, field_a_word, field_b_word by lia. eauto.
  - unfold getitem. destruct (OPCODES !! mnemonic_name m) as [o|] eqn:Ho; [cbn|done].
    destruct (process_operand first) as [[a xw]|] eqn:Hfirst; [cbn|done].
    destruct (process_second second) as [[b yw]|] eqn:Hsecond; [cbn|done].
    intros [= <-]. cbn [program].
    pose proof (process_operand_field_code _ _ _ Hfirst) as Ha.
    assert (Hb : b <= 0x3F).
    { destruct second as [o2|]; [|done]. by apply (process_operand_field_code o2 b yw). }
    destruct (OPCODES_range m o Ho) as [Hlt _].
    exists (instruction_word o a b), (option_list xw ++ option_list yw).
    split; [done|]. split; [by apply instruction_word_16_bits|].
    split; [apply option_lists_length|]. split; [done|]. intros _.
    rewrite field_o_word, field_a_word, field_b_word by done.
    split; [done|]. split; [by apply (OPCODES_positive m)|]. eauto.
Qed.

Lemma emitted_instruction_word_witness :
  exists W extra,
    [PInt 0x7DE1; PInt 0x1000; PInt 0x20] = [] ++ PInt W :: extra /\
    W <= 0xFFFF /\ (length extra <= 2)%nat /\
    ("SET" = "JSR" ->
       field_o W = 0 /\ field_a W = 1 /\
       exists yw, process_operand (Indirect (IBasic (BLiteral (PInt 0x1000))))
                  = Ok (field_b W, yw)) /\
    ("SET" <> "JSR" ->
       OPCODES !! "SET" = Some (field_o W) /\ field_o W <> 0 /\
       (exists xw, process_operand (Indirect (IBasic (BLiteral (PInt 0x1000))))
                   = Ok (field_a W, xw)) /\
       (exists yw, process_second (Some (Basic (BLiteral (PInt 0x20))))
                   = Ok (field_b W, yw))).
Proof.
  apply (emitted_instruction_word locals_init
           {| labels := ∅; program := [PInt 0x7DE1; PInt 0x1000; PInt 0x20];
              x := Some (Some (PInt 0x1000)) |}
           "" Op.SET (Indirect (IBasic (BLiteral (PInt 0x1000))))
           (Some (Basic (BLiteral (PInt 0x20))))).
  vm_compute. reflexivity.
Defined.

(** ** Strings in the data directive *)




(** ** Labels and the generated words *)

Lemma generate_from_erase_label (parsed : list line) (st1 st2 : locals) :
  program st1 = program st2 -> x st1 = x st2 -> labels st2 = ∅ ->
  outcome_rel (fun a b => program a = program b /\ x a = x b /\ labels b = ∅)
    (generate_from st1 parsed) (generate_from st2 (map erase_label parsed)).
Proof.
  revert st1 st2. induction parsed as [|ln rest IH]; intros st1 st2 Hprog Hx Hl; [done|].
  cbn [map]. rewrite !generate_from_cons.
  pose proof (codegen_line_lockstep st1 st2 ln (erase_label ln) Hprog Hx eq_refl)
    as Hstep.
  destruct (codegen_line st1 ln) as [a|], (codegen_line st2 (erase_label ln)) as [b|];
    try done.
  destruct Hstep as (Hp & Hxx & _ & Hb). rewrite !bind_Ok.
  apply IH; [done | done |]. by rewrite Hb.
Qed.

(** X14: the words that the generation loop emits do not depend on the label
    definitions of the source: with every label definition erased, the loop
    raises the same exception or ends with the same program, and an empty
    table. *)
Theorem labels_do_not_change_words (parsed : list line) :
  (forall st, generate parsed = Ok st ->
     exists st', generate (map erase_label parsed) = Ok st' /\
                 program st' = program st /\ labels st' = ∅) /\
  (forall e, generate parsed = Raise e ->
             generate (map erase_label parsed) = Raise e).
Proof.
  pose proof (generate_from_erase_label parsed locals_init locals_init
                eq_refl eq_refl eq_refl) as Hrel.
  unfold generate.
  destruct (generate_from locals_init parsed) as [a|ea],
           (generate_from locals_init (map erase_label parsed)) as [b|eb]; try done.
  - destruct Hrel as (Hp & _ & Hl). split; [|done]. intros st [= <-]. by exists b.
  - split; [done|]. intros e [= <-]. by rewrite Hrel.
Qed.

(** ** Generation of a source behind another *)






(** ** Splitting a data line *)



(** ** Lines without effect *)


Lemma generate_from_replace (pre post l1 l2 : list line) :
  (forall st, generate_from st l1 = generate_from st l2) ->
  codegen (pre ++ l1 ++ post) = codegen (pre ++ l2 ++ post).
Proof.
  intros Hsame. unfold codegen, generate. rewrite !generate_from_app.
  destruct (generate_from locals_init pre) as [st0|]; [|done].
  by rewrite !bind_Ok, !generate_from_app, Hsame.
Qed.


(** X18: a label definition can stand on a line of its own before the
    statement that it labels: the address is that of the statement's first
    word either way, and [codegen] returns the same. *)
Theorem label_on_own_line (pre post : list line) (lbl : string) (s : option stmt) :
  codegen (pre ++ Line lbl s :: post)
  = codegen (pre ++ Line lbl None :: Line "" s :: post).
Proof.
  apply (generate_from_replace pre post [Line lbl s] [Line lbl None; Line "" s]).
  intros st. reflexivity.
Qed.

(** ** What [JSR] appends *)

Lemma codegen_line_x_kept (st st' : locals) (ln : line) :
  no_two_operand_instruction ln -> codegen_line st ln = Ok st' -> x st' = x st.
Proof.
  unfold no_two_operand_instruction, codegen_line.
  destruct (statement ln) as [[m first second|data]|].
  - intros ->. cbn [String.eqb Ascii.eqb Bool.eqb].
    destruct (process_operand first) as [[b yw]|]; [cbn|done].
    destruct (read_x st) as [xw|]; [cbn|done]. by intros [= <-].
  - by intros _ [= <-].
  - by intros _ [= <-].
Qed.

Lemma generate_from_x_kept (parsed : list line) (st st' : locals) :
  Forall no_two_operand_instruction parsed ->
  generate_from st parsed = Ok st' -> x st' = x st.
Proof.
  intros Hall. revert st. induction Hall as [|ln rest Hln _ IH]; intros st.
  - by intros [= <-].
  - rewrite generate_from_cons.
    destruct (codegen_line st ln) as [st1|] eqn:Hline; [|done]. rewrite bind_Ok.
    intros Hrest. rewrite (IH _ Hrest). by apply (codegen_line_x_kept st st1 ln).
Qed.

Lemma codegen_line_x_assigned (st st' : locals) (lbl : string) (m : mnemonic)
    (first : operand) (second : option operand) (a : N) (xw : option pyval) :
  mnemonic_name m <> "JSR" -> process_operand first = Ok (a, xw) ->
  codegen_line st (Line lbl (Some (Instruction m first second))) = Ok st' ->
  x st' = Some xw.
Proof.
  intros Hm Hfirst. unfold codegen_line. cbn [statement].
  destruct (String.eqb_spec (mnemonic_name m) "JSR"); [done|].
  destruct (getitem OPCODES _) as [o|]; [cbn|done]. rewrite Hfirst. cbn.
  destruct (process_second second) as [[b yw]|]; [cbn|done]. by intros [= <-].
Qed.

(** X19: what a [JSR] line appends when a two-operand instruction precedes
    it: the instruction word with opcode [0] and a-field [1], then the extra
    word of the first operand of the last two-operand instruction before
    it, if that operand had one, then the extra word of its own operand;
    hence exactly the instruction word and its operand's extra word when
    that first operand had none. *)
Theorem jsr_appended_words (pre mid : list line) (lbl2 lbl : string) (m : mnemonic)
    (first : operand) (second2 : option operand) (a : N) (xw : option pyval)
    (o : operand) (second : option operand) (b : N) (yw : option pyval)
    (st : locals) :
  mnemonic_name m <> "JSR" ->
  process_operand first = Ok (a, xw) ->
  Forall no_two_operand_instruction mid ->
  generate (pre ++ Line lbl2 (Some (Instruction m first second2)) :: mid) = Ok st ->
  process_operand o = Ok (b, yw) ->
  exists st',
    codegen_line st (Line lbl (Some (Instruction Op.JSR o second))) = Ok st' /\
    program st' =
      program st ++ [PInt (instruction_word 0x00 0x01 b)]
        ++ option_list xw ++ option_list yw /\
    (xw = None ->
     program st' = program st ++ [PInt (instruction_word 0x00 0x01 b)] ++ option_list yw).
Proof.
  intros Hm Hfirst Hmid Hgen Ho. unfold generate in Hgen.
  rewrite generate_from_app in Hgen.
  destruct (generate_from locals_init pre) as [st0|]; [|done].
  rewrite bind_Ok, generate_from_cons in Hgen.
  destruct (codegen_line st0 _) as [st1|] eqn:Hline; [|done]. rewrite bind_Ok in Hgen.
  assert (Hx : x st = Some xw).
  { rewrite (generate_from_x_kept mid st1 st Hmid Hgen).
    by apply (codegen_line_x_assigned st0 st1 lbl2 m first second2 a). }
  destruct (codegen_line_JSR st lbl o second b yw xw Ho Hx) as (st' & Hst' & Hprog).
  exists st'. split; [done|]. split; [done|]. by intros ->.
Qed.

Lemma jsr_appended_words_witness :
  exists st',
    codegen_line locals_jump
      (Line "" (Some (Instruction Op.JSR (Basic (BLiteral (PStr "loop"))) None))) = Ok st' /\
    program st' =
      program locals_jump ++ [PInt (instruction_word 0x00 0x01 0x1F)]
        ++ option_list None ++ option_list (Some (PStr "loop")) /\
    (@None pyval = None ->
     program st' = program locals_jump ++ [PInt (instruction_word 0x00 0x01 0x1F)]
                     ++ option_list (Some (PStr "loop"))).
Proof.
  apply (jsr_appended_words [] [] "" "" Op.SET (Basic (BRegister Reg.PC))
           (Some (Basic (BLiteral (PStr "loop")))) 0x1C None
           (Basic (BLiteral (PStr "loop"))) None 0x1F (Some (PStr "loop")) locals_jump).
  - discriminate.
  - vm_compute. reflexivity.
  - constructor.
  - vm_compute. reflexivity.
  - vm_compute. reflexivity.
Defined.
